(** * The mutation-context protocol of the persistent structures

    A shallow embedding of [Persistent/MutationContext] and of the
    constructors of [Persistent/RedBlackTree].  JavaScript objects are
    heap cells: a token (the one-tuple [[boolean]]), a [MutationContext]
    and a [Persistent] value each live at a reference, and reference
    identity ([===]) is equality of references.  Operations run in a
    state-and-exception monad over that heap. *)

From stdpp Require Import base gmap strings.
From Stdlib Require Import ZArith Lia.

Local Open Scope Z_scope.

(** ** Heap model *)

(** Object identity. *)
Definition ref := positive.

(** [class MutationContext { token: [boolean]; scope: number }].  The
    token is held by reference; the scope only ever takes integer values
    (it starts at [0] or [-1] and moves by [++] and [--]). *)
Record MutationContext := mkMutationContext { token : ref; scope : Z }.

(** The two helpers of [Persistent/Errors] used by the protocol; both
    throw a plain [Error] whose message is built from the arguments.  A
    [TypeError] is what the runtime raises on a property access through
    something that is not an object of the expected shape, and on a write
    to a frozen object. *)
Inductive Error :=
  | ArgumentError (name message : string)
  | InvalidOperation (s : string)
  | TypeError.

Section Protocol.

(** Whatever a structure stores besides its context and its persistent
    children (keys, counters, ...). *)
Context {Data : Type}.

(** [interface Persistent]: the context slot [[mctxSym]], the data, and
    the named properties holding persistent children. *)
Record Persistent := mkPersistent
  { mctx : ref; content : Data; slots : gmap string ref }.

Record Heap := mkHeap
  { tokens : gmap ref bool;
    contexts : gmap ref MutationContext;
    values : gmap ref Persistent }.

Inductive Outcome (A : Type) :=
  | Ok (a : A) (h : Heap)
  | Throw (e : Error) (h : Heap).
Global Arguments Ok {A} a h.
Global Arguments Throw {A} e h.

Definition M (A : Type) : Type := Heap → Outcome A.

Definition ret {A} (a : A) : M A := λ h, Ok a h.

Definition bind {A B} (m : M A) (f : A → M B) : M B := λ h,
  match m h with
  | Ok a h' => f a h'
  | Throw e h' => Throw e h'
  end.

Notation "'let*' x := m 'in' k" := (bind m (λ x, k))
  (at level 10, x name, m at level 100, k at level 200).
Notation "m >> k" := (bind m (λ _, k))
  (at level 100, k at level 200, right associativity).

Definition throw {A} (e : Error) : M A := λ h, Throw e h.

(** [throwArgumentError] and [throwInvalidOperation]. *)
Definition throwArgumentError {A} (name message : string) : M A :=
  throw (ArgumentError name message).
Definition throwInvalidOperation {A} (s : string) : M A :=
  throw (InvalidOperation s).

(** [export const Frozen = Object.freeze(new MutationContext([false], -1))]
    is the first token and the first context allocated by the module. *)
Definition FrozenToken : ref := 1%positive.
Definition Frozen : ref := 1%positive.

Definition initial : Heap :=
  mkHeap {[ FrozenToken := false ]}
         {[ Frozen := mkMutationContext FrozenToken (-1) ]}
         ∅.

(** *** Primitive heap accesses *)

(** [[b]]: a new one-tuple. *)
Definition newToken (b : bool) : M ref := λ h,
  let t := fresh (dom (tokens h)) in
  Ok t (mkHeap (<[t := b]> (tokens h)) (contexts h) (values h)).

(** [new MutationContext(token, scope)]. *)
Definition newMutationContext (token : ref) (scope : Z) : M ref := λ h,
  let c := fresh (dom (contexts h)) in
  Ok c (mkHeap (tokens h) (<[c := mkMutationContext token scope]> (contexts h))
               (values h)).

Definition readContext (c : ref) : M MutationContext := λ h,
  match contexts h !! c with
  | Some x => Ok x h
  | None => Throw TypeError h
  end.

(** [token[0]]. *)
Definition readToken (t : ref) : M bool := λ h,
  match tokens h !! t with
  | Some b => Ok b h
  | None => Throw TypeError h
  end.

(** [token[0] = b]. *)
Definition writeToken (t : ref) (b : bool) : M unit := λ h,
  Ok tt (mkHeap (<[t := b]> (tokens h)) (contexts h) (values h)).

(** [mctx.scope = s]; [Frozen] went through [Object.freeze], so a write
    to its [scope] raises a [TypeError] (module code is strict). *)
Definition writeScope (c : ref) (s : Z) : M unit := λ h,
  if bool_decide (c = Frozen) then Throw TypeError h
  else match contexts h !! c with
       | Some x =>
           Ok tt (mkHeap (tokens h)
                         (<[c := mkMutationContext (token x) s]> (contexts h))
                         (values h))
       | None => Throw TypeError h
       end.

(** [value[mctxSym]]. *)
Definition getMutationContext (value : ref) : M ref := λ h,
  match values h !! value with
  | Some o => Ok (mctx o) h
  | None => Throw TypeError h
  end.

(** [parent[name]], for a property that holds a persistent child. *)
Definition getProperty (parent : ref) (name : string) : M ref := λ h,
  match values h !! parent with
  | Some o =>
      match slots o !! name with
      | Some child => Ok child h
      | None => Throw TypeError h
      end
  | None => Throw TypeError h
  end.

(** [parent[name] = child]. *)
Definition setProperty (parent : ref) (name : string) (child : ref) : M unit :=
  λ h,
  match values h !! parent with
  | Some o =>
      Ok tt (mkHeap (tokens h) (contexts h)
                    (<[parent := mkPersistent (mctx o) (content o)
                                              (<[name := child]> (slots o))]>
                       (values h)))
  | None => Throw TypeError h
  end.

(** Modelled from the spec: the clone hook [value[cloneSym](mctx)] of a
    structure, whose implementations are not part of the module.  It
    produces a new instance with the same content and the same children
    (no deep copy) that carries the context it is given. *)
Definition cloneHook (value : ref) (mc : ref) : M ref := λ h,
  match values h !! value with
  | Some o =>
      let v := fresh (dom (values h)) in
      Ok v (mkHeap (tokens h) (contexts h)
                   (<[v := mkPersistent mc (content o) (slots o)]> (values h)))
  | None => Throw TypeError h
  end.

(** ** The module's operations *)

(** [type PreferredContext = MutationContext | Persistent | boolean], with
    the absent argument. *)
Inductive PreferredContext :=
  | PUndefined
  | PBool (b : bool)
  | PContext (c : ref)
  | PValue (v : ref).

(** The first argument [Persistent | MutationContext] of the [modifyAs...]
    functions. *)
Inductive ContextOrValue :=
  | OContext (c : ref)
  | OValue (v : ref).

Definition mutable : M ref :=
  let* t := newToken true in newMutationContext t 0.

Definition isMutableContext (mc : ref) : M bool :=
  let* x := readContext mc in readToken (token x).

Definition isImmutableContext (mc : ref) : M bool :=
  let* b := isMutableContext mc in ret (negb b).

Definition asSubordinateContext (mc : ref) : M ref :=
  let* x := readContext mc in
  if 0 <=? scope x then newMutationContext (token x) (-1) else ret mc.

Definition getSubordinateContext (value : ref) : M ref :=
  let* mc := getMutationContext value in asSubordinateContext mc.

Definition selectContext (pctx : PreferredContext) : M ref :=
  match pctx with
  | PUndefined => ret Frozen
  | PBool b => if b then mutable else ret Frozen
  | PContext c => let* m := isMutableContext c in ret (if m then c else Frozen)
  | PValue v => getSubordinateContext v
  end.

Definition clone (value : ref) (pctx : PreferredContext) : M ref :=
  let* mc := selectContext pctx in cloneHook value mc.

Definition isPrimaryContext (mc : ref) : M bool :=
  let* x := readContext mc in ret (0 <=? scope x).

Definition isSubordinateContext (mc : ref) : M bool :=
  let* x := readContext mc in ret (scope x =? -1).

Definition close (mc : ref) : M unit :=
  let* x := readContext mc in writeToken (token x) false.

Definition tokenOf (value : ref) : M ref :=
  let* mc := getMutationContext value in let* x := readContext mc in ret (token x).

Definition incScope (mc : ref) : M unit :=
  let* x := readContext mc in writeScope mc (scope x + 1).

Definition decScope (mc : ref) : M unit :=
  let* x := readContext mc in writeScope mc (scope x - 1).

Definition isRelatedContext (a b : ref) : M bool :=
  let* x := readContext a in let* y := readContext b in
  ret (bool_decide (token x = token y)).

Definition immutable : M ref := ret Frozen.

Definition commitContext (mc : ref) : M unit :=
  let* p := isPrimaryContext mc in if p then close mc else ret tt.

Definition isMutable (value : ref) : M bool :=
  let* mc := getMutationContext value in isMutableContext mc.

Definition isImmutable (value : ref) : M bool :=
  let* b := isMutable value in ret (negb b).

Definition areContextsRelated (a b : ref) : M bool :=
  let* ta := tokenOf a in let* tb := tokenOf b in ret (bool_decide (ta = tb)).

Definition hasRelatedContext (mc : ref) (value : ref) : M bool :=
  let* x := readContext mc in let* tv := tokenOf value in
  ret (bool_decide (token x = tv)).

(** [isMutableContext(mc) ? (isSubordinateContext(mc) ? value
    : (incScope(mc), value)) : clone(value, mutable())]. *)
Definition begin (value : ref) : M ref :=
  let* mc := getMutationContext value in
  let* m := isMutableContext mc in
  if m then
    let* s := isSubordinateContext mc in
    if s then ret value else incScope mc >> ret value
  else
    let* c := mutable in clone value (PContext c).

(** [isPrimaryContext(mc) && (mc.scope === 0 ? close(mc) : decScope(mc)), value]. *)
Definition commit (value : ref) : M ref :=
  let* mc := getMutationContext value in
  let* p := isPrimaryContext mc in
  (if p then
     let* x := readContext mc in
     if scope x =? 0 then close mc else decScope mc
   else ret tt) >>
  ret value.

(** [isMutationContext(context) ? context : getMutationContext(context)]. *)
Definition contextOf (context : ContextOrValue) : M ref :=
  match context with
  | OContext c => ret c
  | OValue v => getMutationContext v
  end.

(** The guard is [isRelatedContext(mctxChild, mctxParent) &&
    isSubordinateContext(mctxChild)], the second test being run only when the
    first holds. *)
Definition modifyAsSubordinate (context : ContextOrValue) (value : ref) : M ref :=
  let* mctxChild := getMutationContext value in
  let* mctxParent := contextOf context in
  let* m := isMutableContext mctxParent in
  if m then
    let* r := isRelatedContext mctxChild mctxParent in
    let* s := (if r then isSubordinateContext mctxChild else ret false) in
    if s then ret value
    else let* c := asSubordinateContext mctxParent in clone value (PContext c)
  else
    throwArgumentError "context"
      "The first argument must refer to a mutable object or mutation context".

(** The guard is [isRelatedContext(mcChild, mcParent) &&
    (isSubordinateContext(mcParent) || isPrimaryContext(mcChild))]. *)
Definition modifyAsEqual (context : ContextOrValue) (value : ref) : M ref :=
  let* mcChild := getMutationContext value in
  let* mcParent := contextOf context in
  let* m := isMutableContext mcParent in
  if m then
    let* r := isRelatedContext mcChild mcParent in
    let* k := (if r then
           let* sp := isSubordinateContext mcParent in
           if sp then ret true else isPrimaryContext mcChild
         else ret false) in
    if k then ret value else clone value (PContext mcParent)
  else
    throwArgumentError "context"
      "The first argument must refer to a mutable object or mutation context".

(** [parent[name] = child = clone(child, parent)] when the child is not
    related. *)
Definition modifyProperty (parent : ref) (name : string) : M ref :=
  let* imm := isImmutable parent in
  if imm then
    throwInvalidOperation "Cannot modify properties of an immutable object"
  else
    let* child := getProperty parent name in
    let* cc := getMutationContext child in
    let* pc := getMutationContext parent in
    let* r := isRelatedContext cc pc in
    if r then ret child
    else
      let* child' := clone child (PValue parent) in
      setProperty parent name child' >>
      ret child'.

(** The four shapes of [pctx]; each either returns [value] or calls the
    clone hook with the context it selected. *)
Definition withMutability (pctx : PreferredContext) (value : ref) : M ref :=
  match pctx with
  | PUndefined => cloneHook value Frozen
  | PBool b =>
      let* m := isMutable value in
      if bool_decide (b = m) then ret value
      else let* mc := (if b then mutable else ret Frozen) in cloneHook value mc
  | PContext c =>
      let* vc := getMutationContext value in
      let* r := isRelatedContext c vc in
      if r then ret value else cloneHook value c
  | PValue p =>
      let* r := areContextsRelated p value in
      if r then ret value
      else let* mc := getSubordinateContext p in cloneHook value mc
  end.

Definition ensureContext (mc : ref) (value : ref) : M ref :=
  let* vc := getMutationContext value in
  if bool_decide (vc = mc) then ret value else cloneHook value mc.

(** [type UpdaterFn<T, void>]: a procedure run for its effect on the heap. *)
Definition UpdaterFn := ref → M unit.

(** [value = begin(value); mutate(value); return commit(value)]. *)
Definition update (mutate : UpdaterFn) (value : ref) : M ref :=
  let* value := begin value in
  mutate value >>
  commit value.

End Protocol.
Global Arguments Persistent : clear implicits.
Global Arguments Heap : clear implicits.
Global Arguments M : clear implicits.
Global Arguments UpdaterFn : clear implicits.

Global Instance MutationContext_eq_dec : EqDecision MutationContext.
Proof. solve_decision. Defined.

(** ** Well-formed heaps

    What holds of every heap the module can produce: [Frozen] is the
    frozen context of scope [-1] over a token that reads [false], no
    reference dangles, and a scope is [-1] or a nesting depth. *)
Definition wf {Data} (h : Heap Data) : Prop :=
  contexts h !! Frozen = Some (mkMutationContext FrozenToken (-1))
  ∧ tokens h !! FrozenToken = Some false
  ∧ map_Forall (λ _ x, is_Some (tokens h !! token x) ∧ -1 <= scope x)
               (contexts h)
  ∧ map_Forall (λ _ o, is_Some (contexts h !! mctx o)
                       ∧ map_Forall (λ _ c, is_Some (values h !! c)) (slots o))
               (values h).

Global Instance wf_dec {Data} (h : Heap Data) : Decision (wf h).
Proof. unfold wf. apply _. Defined.

(** [m] runs to completion from [h] and leaves a well-formed heap. *)
Definition safe {Data A} (m : M Data A) (h : Heap Data) : Prop :=
  ∃ a h', m h = Ok a h' ∧ wf h'.

(** [h'] still has every context and every value of [h]. *)
Definition ext {Data} (h h' : Heap Data) : Prop :=
  (∀ k, is_Some (contexts h !! k) → is_Some (contexts h' !! k))
  ∧ (∀ v, is_Some (values h !! v) → is_Some (values h' !! v)).

(** [m] runs to completion from [h], leaves a well-formed heap that
    extends [h], and its result satisfies [R] there. *)
Definition good {Data A} (R : A → Heap Data → Prop) (m : M Data A)
    (h : Heap Data) : Prop :=
  ∃ a h', m h = Ok a h' ∧ wf h' ∧ ext h h' ∧ R a h'.

Definition isContext {Data} (k : ref) (h : Heap Data) : Prop :=
  is_Some (contexts h !! k).

Definition isValue {Data} (v : ref) (h : Heap Data) : Prop :=
  is_Some (values h !! v).

(** Arguments that refer to objects of the heap. *)
Definition validPreferred {Data} (h : Heap Data) (pctx : PreferredContext) : Prop :=
  match pctx with
  | PUndefined | PBool _ => True
  | PContext k => isContext k h
  | PValue v => isValue v h
  end.

Definition validOwner {Data} (h : Heap Data) (context : ContextOrValue) : Prop :=
  match context with
  | OContext k => isContext k h
  | OValue v => isValue v h
  end.

Definition raisesArgumentError {Data A} (m : M Data A) (h : Heap Data) : Prop :=
  ∃ name message h', m h = Throw (ArgumentError name message) h'.

Definition raisesInvalidOperation {Data A} (m : M Data A) (h : Heap Data) : Prop :=
  ∃ s h', m h = Throw (InvalidOperation s) h'.

(** ** Mutation procedures

    An in-place edit of the value it is handed: here, overwriting the
    data of the structure. *)
Definition setContent {Data} (d : Data) : UpdaterFn Data := λ value h,
  match values h !! value with
  | Some o =>
      Ok tt (mkHeap (tokens h) (contexts h)
                    (<[value := mkPersistent (mctx o) d (slots o)]> (values h)))
  | None => Throw TypeError h
  end.

(** A procedure that enters a nested batch on its argument and does not
    leave it. *)
Definition enterOnly {Data} : UpdaterFn Data := λ value,
  bind (begin value) (λ _, ret tt).

(** What [update] relies on from the procedure it is given: called on a
    mutable value of a well-formed heap it returns normally, it keeps the
    heap well-formed, it leaves alone every value that was immutable when
    it was called, and it hands its argument back with the context it
    found on it (the same context object, at the same nesting depth). *)
Definition MutationProcedure {Data} (mutate : UpdaterFn Data) : Prop :=
  ∀ (h : Heap Data) value o c,
    wf h →
    values h !! value = Some o →
    contexts h !! mctx o = Some c →
    tokens h !! token c = Some true →
    ∃ h', mutate value h = Ok tt h'
      ∧ wf h'
      ∧ (∃ o', values h' !! value = Some o' ∧ mctx o' = mctx o)
      ∧ contexts h' !! mctx o = Some c
      ∧ (∀ w ow, values h !! w = Some ow →
                 isImmutable w h = Ok true h →
                 values h' !! w = Some ow).

(** ** Behaviour as described *)

(** [modifyAsEqual] as described: [value] comes back as it is when its
    context shares the owner's token and is primary, and a new clone
    comes back in every other case. *)
Definition modifyAsEqual_described {Data} (h : Heap Data)
    (context : ContextOrValue) (value : ref) : Prop :=
  ∀ o c mcParent p,
    values h !! value = Some o →
    contexts h !! mctx o = Some c →
    contextOf context h = Ok mcParent h →
    contexts h !! mcParent = Some p →
    tokens h !! token p = Some true →
    (token c = token p ∧ 0 <= scope c → modifyAsEqual context value h = Ok value h)
    ∧ (¬ (token c = token p ∧ 0 <= scope c) →
       ∃ v' h', modifyAsEqual context value h = Ok v' h'
                ∧ values h !! v' = None).

(** The no-op batch [begin(commit(begin(v)))]. *)
Definition roundTrip {Data} (value : ref) : M Data ref :=
  bind (begin value) (λ v1, bind (commit v1) (λ v2, begin v2)).

(** The round trip as described: same content, frozen context. *)
Definition roundTrip_described {Data} (h : Heap Data) (value : ref) : Prop :=
  ∀ o, values h !! value = Some o →
    ∃ v' h' o', roundTrip value h = Ok v' h'
      ∧ values h' !! v' = Some o'
      ∧ content o' = content o ∧ slots o' = slots o
      ∧ isImmutable v' h' = Ok true h'.

(** ** Sample heaps *)

(** One immutable value, built on [Frozen]. *)
Definition heapFrozen : Heap Z :=
  mkHeap {[ 1%positive := false ]}
         {[ 1%positive := mkMutationContext 1%positive (-1) ]}
         {[ 1%positive := mkPersistent 1%positive 7 ∅ ]}.

(** An open batch: value [1] owns it (context [2], scope [0]); values [2]
    and [3] joined it through the shared subordinate context [3]; value
    [4] is immutable and sits in the slot ["left"] of [1]; value [5] owns
    a nested batch (scope [1]) of its own. *)
Definition heapBatch : Heap Z :=
  mkHeap {[ 1%positive := false; 2%positive := true; 3%positive := true ]}
         {[ 1%positive := mkMutationContext 1%positive (-1);
            2%positive := mkMutationContext 2%positive 0;
            3%positive := mkMutationContext 2%positive (-1);
            4%positive := mkMutationContext 3%positive 1 ]}
         {[ 1%positive := mkPersistent 2%positive 10 {[ "left" := 4%positive ]};
            2%positive := mkPersistent 3%positive 20 ∅;
            3%positive := mkPersistent 3%positive 30 ∅;
            4%positive := mkPersistent 1%positive 40 ∅;
            5%positive := mkPersistent 4%positive 50 ∅ ]}.


(** ** Reflection on constructors *)

(** A function value as far as [isPersistentConstructor] looks at it: its
    [prototype] property, which is [undefined] on an arrow function, a
    method or a bound function, and, on a prototype object, whether the
    entry under [cloneSym] is a function. *)
Record FunctionValue := mkFunction { prototype : option bool }.

(** [typeof value === "function" &&
     typeof value.prototype[cloneSym] === "function"], on a value of type
    [Function]: the first test holds, and the property access of the
    second goes through [value.prototype]. *)
Definition isPersistentConstructor {Data} (value : FunctionValue) : M Data bool :=
  match prototype value with
  | Some cloneIsFunction => ret cloneIsFunction
  | Datatypes.None => throw TypeError
  end.

(** ** Programs over the module

    What an operation leaves in the heap, whether it returned or threw. *)
Definition heapOf {Data A} (r : @Outcome Data A) : Heap Data :=
  match r with
  | Ok _ h => h
  | Throw _ h => h
  end.

(** [h'] came out of [h] the way the module changes heaps: a token that
    reads [false] still does; a context keeps its token and its role; a
    value keeps its context slot and its data, and all of itself when it
    was immutable. *)
Definition evolves {Data} (h h' : Heap Data) : Prop :=
  (∀ t, tokens h !! t = Some false → tokens h' !! t = Some false)
  ∧ (∀ k c, contexts h !! k = Some c →
       ∃ c', contexts h' !! k = Some c' ∧ token c' = token c
             ∧ (scope c = -1 → scope c' = -1)
             ∧ (0 <= scope c → 0 <= scope c'))
  ∧ (∀ v o, values h !! v = Some o →
       ∃ o', values h' !! v = Some o' ∧ mctx o' = mctx o
             ∧ content o' = content o
             ∧ (∀ c, contexts h !! mctx o = Some c →
                     tokens h !! token c = Some false → o' = o)).

Definition readonly {Data A} (m : M Data A) : Prop :=
  ∀ h, heapOf (m h) = h.

Definition preserves {Data A} (m : M Data A) : Prop :=
  ∀ h, evolves h (heapOf (m h)).

(** One call of an exported operation that can write to the heap. *)
Inductive Call :=
  | CallMutable
  | CallSelectContext (pctx : PreferredContext)
  | CallAsSubordinateContext (mc : ref)
  | CallGetSubordinateContext (value : ref)
  | CallCommitContext (mc : ref)
  | CallClone (value : ref) (pctx : PreferredContext)
  | CallBegin (value : ref)
  | CallCommit (value : ref)
  | CallModifyAsSubordinate (context : ContextOrValue) (value : ref)
  | CallModifyAsEqual (context : ContextOrValue) (value : ref)
  | CallModifyProperty (parent : ref) (name : string)
  | CallWithMutability (pctx : PreferredContext) (value : ref)
  | CallEnsureContext (mc : ref) (value : ref).

Definition exec {Data} (c : Call) (h : Heap Data) : Heap Data :=
  match c with
  | CallMutable => heapOf (mutable h)
  | CallSelectContext pctx => heapOf (selectContext pctx h)
  | CallAsSubordinateContext mc => heapOf (asSubordinateContext mc h)
  | CallGetSubordinateContext value => heapOf (getSubordinateContext value h)
  | CallCommitContext mc => heapOf (commitContext mc h)
  | CallClone value pctx => heapOf (clone value pctx h)
  | CallBegin value => heapOf (begin value h)
  | CallCommit value => heapOf (commit value h)
  | CallModifyAsSubordinate context value =>
      heapOf (modifyAsSubordinate context value h)
  | CallModifyAsEqual context value => heapOf (modifyAsEqual context value h)
  | CallModifyProperty parent name => heapOf (modifyProperty parent name h)
  | CallWithMutability pctx value => heapOf (withMutability pctx value h)
  | CallEnsureContext mc value => heapOf (ensureContext mc value h)
  end.

(** A client that makes the calls one after the other, going on after a
    call that threw. *)
Definition runCalls {Data} (calls : list Call) (h : Heap Data) : Heap Data :=
  fold_left (λ h c, exec c h) calls h.

(** [n] nested batches on one value: [begin] [n] times, then [commit] [n]
    times. *)
Fixpoint nested {Data} (n : nat) (value : ref) : M Data ref :=
  match n with
  | O => ret value
  | S n => bind (begin value) (λ v, bind (nested n v) commit)
  end.

(** The mutability a preference asks for, read in the heap where the
    preference is given. *)
Definition preferredMutability {Data} (h : Heap Data) (pctx : PreferredContext)
    (b : bool) : Prop :=
  match pctx with
  | PUndefined => b = false
  | PBool x => b = x
  | PContext c => isMutableContext c h = Ok b h
  | PValue v => isMutable v h = Ok b h
  end.

(** ** Red-black tree constructors *)

Module RedBlackTree.

Section Tree.
Context {K V : Type}.

(** [class Node]; the sentinel is built with [undefined] for key and
    value, hence the options. *)
Record Node := mkNode
  { editable : bool;
    key : option K;
    value : option V;
    red : bool;
    count : Z;
    left : ref;
    right : ref }.

(** An ordering comparator, used as an opaque function. *)
Definition Ord := K → K → Z.

(** [class RedBlackTree]. *)
Record RedBlackTree := mkRedBlackTree
  { tree_editable : bool;
    ord : Ord;
    root : ref;
    size : Z }.

Definition Store := gmap ref Node.

(** [new Node(editable, key, value, red, count, left?, right?)]: an absent
    child ([left || this]) is the node itself; a node reference is an
    object, hence truthy. *)
Definition newNode (editable : bool) (key : option K) (value : option V)
    (red : bool) (count : Z) (left right : option ref) (s : Store)
  : ref * Store :=
  let this := fresh (dom s) in
  (this, <[this := mkNode editable key value red count
                          (default this left) (default this right)]> s).

(** [export const None = new Node<any, any>(true, undefined, undefined, false, 0)],
    the first node of the module. *)
Definition moduleInit : ref * Store :=
  newNode true Datatypes.None Datatypes.None false 0
          Datatypes.None Datatypes.None ∅.

Definition None : ref := 1%positive.

Definition initial : Store := snd moduleInit.


Definition makeNode (tree : RedBlackTree) (red : bool) (key : K) (value : V)
    (s : Store) : ref * Store :=
  newNode (tree_editable tree) (Some key) (Some value) red 1
          (Some None) (Some None) s.

End Tree.
Global Arguments Node : clear implicits.
Global Arguments RedBlackTree : clear implicits.
Global Arguments Store : clear implicits.
Global Arguments Ord : clear implicits.

End RedBlackTree.

(** * Facts *)

(** ** Error messages *)

Module Errors.

(** Truthiness of a string: every string but the empty one. *)
Definition truthy (s : string) : bool :=
  match s with
  | EmptyString => false
  | String _ _ => true
  end.

(** An optional argument [message?: string]. *)
Definition truthyOpt (message : option string) : bool :=
  match message with
  | Some m => truthy m
  | Datatypes.None => false
  end.

Definition text (message : option string) : string :=
  match message with
  | Some m => m
  | Datatypes.None => EmptyString
  end.

(** The double quote, character 34. *)
Definition quote : string :=
  String (Ascii.Ascii false true false false false true false false) EmptyString.

(** The message each helper hands to [throwError]. *)
Definition notImplementedMessage (s : string) : string :=
  "Not implemented" +:+ (if truthy s then ": " +:+ s else EmptyString).

Definition notSupportedMessage (s : string) : string :=
  "Operation not supported" +:+ (if truthy s then ": " +:+ s else EmptyString).

Definition invalidOperationMessage (s : string) : string :=
  "Invalid operation" +:+ (if truthy s then ": " +:+ s else EmptyString).

Definition missingMessage (name : string) (message : option string) : string :=
  "No value is defined" +:+
  (if truthy name
   then " for " +:+ quote +:+ name +:+ quote +:+
        (if truthyOpt message then " (" +:+ text message +:+ ")"
         else EmptyString)
   else EmptyString).

Definition argumentErrorMessage (name : string) (message : option string)
  : string :=
  "Invalid " +:+
  (if truthy name then "value for parameter " +:+ quote +:+ name +:+ quote
   else "argument value") +:+
  (if truthyOpt message then ": " +:+ text message else EmptyString).

End Errors.

(** ** Orderings *)

Module Ordering.

(** [type Ordering = -1 | 0 | 1]. *)
Definition isOrdering (o : Z) : Prop := o = -1 ∨ o = 0 ∨ o = 1.

(** [sign], on the numbers that are integers. *)
Definition sign (n : Z) : Z :=
  if n <? 0 then -1 else if 0 <? n then 1 else 0.

(** [invert]: a [switch] on [-1] and [1] with [0] as the default. *)
Definition invert (o : Z) : Z :=
  if o =? -1 then 1 else if o =? 1 then -1 else 0.

(** [const compare = (y) => (x) => x < y ? -1 : x > y ? 1 : 0], over the
    [<] of the compared type; [x > y] is [y < x]. *)
Definition compare {A} (lt : A → A → bool) (y x : A) : Z :=
  if lt x y then -1 else if lt y x then 1 else 0.

(** [<] on booleans: [false < true]. *)
Definition ltBoolean (a b : bool) : bool := negb a && b.

(** The comparators behind [ordNumber] (on integers) and [ordBoolean]. *)
Definition ordNumber : Z → Z → Z := compare Z.ltb.
Definition ordBoolean : bool → bool → Z := compare ltBoolean.

End Ordering.

(** ** Building nodes *)

(** The store after a run of [makeNode] calls for one tree. *)
Definition makeNodes {K V} (tree : RedBlackTree.RedBlackTree K)
    (items : list (bool * K * V)) (s : RedBlackTree.Store K V)
  : RedBlackTree.Store K V :=
  fold_left (λ s item, snd (RedBlackTree.makeNode tree item.1.1 item.1.2 item.2 s))
            items s.

(** ** Tactics *)

(** Record projections and the monad's matches, and nothing else. *)
Ltac proj :=
  cbn [tokens contexts values mctx content slots token scope negb] in *.

Ltac lookups :=
  repeat match goal with
    | H : ?m !! ?k = _ |- context [?m !! ?k] => rewrite H
    | |- context [<[?k := _]> _ !! ?k] => rewrite lookup_insert_eq
    | |- context [<[?k := _]> _ !! ?j] => rewrite lookup_insert_ne by congruence
    | H : ?x = Ok _ _ |- context [?x] => rewrite H
    end.

Ltac zbool :=
  repeat first
    [ rewrite (proj2 (Z.leb_le _ _)) by lia
    | rewrite (proj2 (Z.leb_gt _ _)) by lia
    | rewrite (proj2 (Z.eqb_eq _ _)) by lia
    | rewrite (proj2 (Z.eqb_neq _ _)) by lia
    | rewrite bool_decide_eq_true_2 by congruence
    | rewrite bool_decide_eq_false_2 by congruence ].

Ltac run := repeat (progress (proj; lookups; zbool)).

Ltac splits := repeat match goal with |- _ ∧ _ => split end.

Ltac unfold_ops :=
  unfold modifyProperty, clone, selectContext, getSubordinateContext,
    asSubordinateContext, isImmutable, isMutable, isMutableContext,
    isRelatedContext, getProperty, setProperty, getMutationContext, cloneHook,
    newMutationContext, throwInvalidOperation, throw, bind, readContext,
    readToken, ret.

Section ProtocolFacts.
Context {Data : Type}.
Implicit Types (h : Heap Data) (o : Persistent Data) (c : MutationContext).

(** ** Running the monad *)

Lemma bind_Ok {A B} (m : M Data A) (f : A → M Data B) h a h' :
  m h = Ok a h' → bind m f h = f a h'.
Proof. intros E. unfold bind. by rewrite E. Qed.

Lemma bind_Throw {A B} (m : M Data A) (f : A → M Data B) h e h' :
  m h = Throw e h' → bind m f h = Throw e h'.
Proof. intros E. unfold bind. by rewrite E. Qed.

Lemma fresh_lookup {X} (m : gmap ref X) : m !! fresh (dom m) = Datatypes.None.
Proof. apply not_elem_of_dom, is_fresh. Qed.

Lemma fresh_ne {X} (m : gmap ref X) k x : m !! k = Some x → k ≠ fresh (dom m).
Proof. intros E ->. rewrite fresh_lookup in E. discriminate. Qed.

(** ** Well-formedness *)

Lemma wf_frozen_context h : wf h →
  contexts h !! Frozen = Some (mkMutationContext FrozenToken (-1)).
Proof. by intros (? & _). Qed.

Lemma wf_frozen_token h : wf h → tokens h !! FrozenToken = Some false.
Proof. by intros (_ & ? & _). Qed.

Lemma wf_context h k c : wf h → contexts h !! k = Some c →
  is_Some (tokens h !! token c) ∧ -1 <= scope c.
Proof. intros (_ & _ & H & _) E. exact (H k c E). Qed.

Lemma wf_value h v o : wf h → values h !! v = Some o →
  is_Some (contexts h !! mctx o).
Proof. intros (_ & _ & _ & H) E. exact (proj1 (H v o E)). Qed.

Lemma wf_slot h v o name child : wf h → values h !! v = Some o →
  slots o !! name = Some child → is_Some (values h !! child).
Proof. intros (_ & _ & _ & H) E S. exact (proj2 (H v o E) name child S). Qed.

(** A context whose token reads [true] is not [Frozen]. *)
Lemma wf_mutable_not_Frozen h k c : wf h →
  contexts h !! k = Some c → tokens h !! token c = Some true → k ≠ Frozen.
Proof.
  intros W E T ->. rewrite (wf_frozen_context h W) in E.
  injection E as <-. proj. rewrite (wf_frozen_token h W) in T.
  discriminate.
Qed.

(** A primary context is not [Frozen]. *)
Lemma wf_primary_not_Frozen h k c : wf h →
  contexts h !! k = Some c → 0 <= scope c → k ≠ Frozen.
Proof.
  intros W E S ->. rewrite (wf_frozen_context h W) in E.
  injection E as <-. proj. lia.
Qed.

Lemma wf_set_token h t b : wf h →
  (t = FrozenToken → b = false) →
  wf (mkHeap (<[t := b]> (tokens h)) (contexts h) (values h)).
Proof.
  intros (F & T & C & V) Hb.
  split; [done|]. split; [|split; [|done]]; proj.
  - destruct (decide (t = FrozenToken)) as [->|N].
    + rewrite lookup_insert_eq. by rewrite Hb.
    + by rewrite lookup_insert_ne.
  - intros i x E. destruct (C i x E) as [[y Hy] ?]. split; [|done].
    destruct (decide (t = token x)) as [->|N].
    + rewrite lookup_insert_eq. eauto.
    + rewrite lookup_insert_ne; eauto.
Qed.

Lemma wf_set_context h k t s : wf h →
  k ≠ Frozen → is_Some (tokens h !! t) → -1 <= s →
  wf (mkHeap (tokens h) (<[k := mkMutationContext t s]> (contexts h)) (values h)).
Proof.
  intros (F & T & C & V) N Ht Hs.
  split; [|split; [done|split]]; proj.
  - by rewrite lookup_insert_ne.
  - intros i x E. destruct (decide (k = i)) as [->|N'].
    + rewrite lookup_insert_eq in E. by injection E as <-.
    + rewrite lookup_insert_ne in E by done. exact (C i x E).
  - intros i x E. destruct (V i x E) as [[y Hy] ?]. split; [|done].
    destruct (decide (k = mctx x)) as [->|N'].
    + rewrite lookup_insert_eq. eauto.
    + rewrite lookup_insert_ne; eauto.
Qed.

Lemma wf_set_value h v mc d sl : wf h →
  is_Some (contexts h !! mc) →
  map_Forall (λ _ child, is_Some (values h !! child)) sl →
  wf (mkHeap (tokens h) (contexts h) (<[v := mkPersistent mc d sl]> (values h))).
Proof.
  intros (F & T & C & V) Hmc Hsl.
  assert (K : ∀ child, is_Some (values h !! child) →
              is_Some (<[v := mkPersistent mc d sl]> (values h) !! child)).
  { intros child [y Hy]. destruct (decide (v = child)) as [->|N].
    - rewrite lookup_insert_eq. eauto.
    - rewrite lookup_insert_ne; eauto. }
  split; [done|]. split; [done|]. split; [done|]. proj.
  intros i x H. destruct (decide (v = i)) as [->|N].
  - rewrite lookup_insert_eq in H. injection H as <-. proj. split; [done|].
    intros n child S. apply K. exact (Hsl n child S).
  - rewrite lookup_insert_ne in H by done. destruct (V i x H) as [? Hs].
    split; [done|]. intros n child S. apply K. exact (Hs n child S).
Qed.

(** ** Single operations *)

Lemma isMutableContext_run h k c b :
  contexts h !! k = Some c → tokens h !! token c = Some b →
  isMutableContext k h = Ok b h.
Proof. intros. unfold isMutableContext, bind, readContext, readToken. by run. Qed.

Lemma isPrimaryContext_run h k c :
  contexts h !! k = Some c → isPrimaryContext k h = Ok (0 <=? scope c) h.
Proof. intros. unfold isPrimaryContext, bind, readContext, ret. by run. Qed.

Lemma isSubordinateContext_run h k c :
  contexts h !! k = Some c → isSubordinateContext k h = Ok (scope c =? -1) h.
Proof. intros. unfold isSubordinateContext, bind, readContext, ret. by run. Qed.

Lemma isRelatedContext_run h k1 k2 c1 c2 :
  contexts h !! k1 = Some c1 → contexts h !! k2 = Some c2 →
  isRelatedContext k1 k2 h = Ok (bool_decide (token c1 = token c2)) h.
Proof. intros. unfold isRelatedContext, bind, readContext, ret. by run. Qed.

Lemma getMutationContext_run h v o :
  values h !! v = Some o → getMutationContext v h = Ok (mctx o) h.
Proof. intros. unfold getMutationContext. by run. Qed.

Lemma isMutable_run h v o c b :
  values h !! v = Some o → contexts h !! mctx o = Some c →
  tokens h !! token c = Some b → isMutable v h = Ok b h.
Proof.
  intros Hv Hc Ht. unfold isMutable.
  rewrite (bind_Ok _ _ _ _ _ (getMutationContext_run _ _ _ Hv)).
  by apply isMutableContext_run with c.
Qed.

Lemma isImmutable_run h v o c b :
  values h !! v = Some o → contexts h !! mctx o = Some c →
  tokens h !! token c = Some b → isImmutable v h = Ok (negb b) h.
Proof.
  intros Hv Hc Ht. unfold isImmutable.
  by rewrite (bind_Ok _ _ _ _ _ (isMutable_run _ _ _ _ _ Hv Hc Ht)).
Qed.

(** What [isImmutable] answers determines the token of the value. *)
Lemma isImmutable_inv h v o c b h' :
  values h !! v = Some o → contexts h !! mctx o = Some c →
  isImmutable v h = Ok b h' → tokens h !! token c = Some (negb b).
Proof.
  intros Hv Hc. unfold isImmutable, isMutable, isMutableContext, bind,
    getMutationContext, readContext, readToken, ret. run.
  destruct (tokens h !! token c) as [[]|]; intros E; by simplify_eq.
Qed.

Lemma mutable_run h :
  mutable h =
    Ok (fresh (dom (contexts h)))
       (mkHeap (<[fresh (dom (tokens h)) := true]> (tokens h))
               (<[fresh (dom (contexts h)) :=
                    mkMutationContext (fresh (dom (tokens h))) 0]> (contexts h))
               (values h)).
Proof. reflexivity. Qed.

Lemma close_run h k c :
  contexts h !! k = Some c →
  close k h = Ok tt (mkHeap (<[token c := false]> (tokens h)) (contexts h) (values h)).
Proof. intros. unfold close, bind, readContext, writeToken. by run. Qed.

(** [clone] with a context that is mutable hands that very context to
    the clone hook. *)
Lemma clone_context_run h v o k c :
  values h !! v = Some o → contexts h !! k = Some c →
  tokens h !! token c = Some true →
  clone v (PContext k) h =
    Ok (fresh (dom (values h)))
       (mkHeap (tokens h) (contexts h)
               (<[fresh (dom (values h)) :=
                    mkPersistent k (content o) (slots o)]> (values h))).
Proof.
  intros Hv Hc Ht. unfold clone, selectContext, isMutableContext, cloneHook,
    bind, readContext, readToken, ret. by run.
Qed.

(** The three cases of [commit]. *)
Lemma commit_close h v o c :
  values h !! v = Some o → contexts h !! mctx o = Some c → scope c = 0 →
  commit v h =
    Ok v (mkHeap (<[token c := false]> (tokens h)) (contexts h) (values h)).
Proof.
  intros Hv Hc Hs. unfold commit, getMutationContext, isPrimaryContext, close,
    decScope, bind, readContext, writeToken, ret. by run.
Qed.

Lemma commit_nested h v o c :
  wf h → values h !! v = Some o → contexts h !! mctx o = Some c → 0 < scope c →
  commit v h =
    Ok v (mkHeap (tokens h)
                 (<[mctx o := mkMutationContext (token c) (scope c - 1)]>
                    (contexts h))
                 (values h)).
Proof.
  intros W Hv Hc Hs.
  assert (mctx o ≠ Frozen) by (eapply wf_primary_not_Frozen; eauto; lia).
  unfold commit, getMutationContext, isPrimaryContext, close,
    decScope, bind, readContext, writeScope, ret. by run.
Qed.

Lemma commit_subordinate h v o c :
  values h !! v = Some o → contexts h !! mctx o = Some c → scope c < 0 →
  commit v h = Ok v h.
Proof.
  intros Hv Hc Hs. unfold commit, getMutationContext, isPrimaryContext,
    bind, readContext, ret. by run.
Qed.

(** The three cases of [begin]. *)
Lemma begin_subordinate h v o c :
  values h !! v = Some o → contexts h !! mctx o = Some c →
  tokens h !! token c = Some true → scope c = -1 →
  begin v h = Ok v h.
Proof.
  intros Hv Hc Ht Hs. unfold begin, getMutationContext, isMutableContext,
    isSubordinateContext, bind, readContext, readToken, ret. by run.
Qed.

Lemma begin_primary h v o c :
  wf h → values h !! v = Some o → contexts h !! mctx o = Some c →
  tokens h !! token c = Some true → scope c ≠ -1 →
  begin v h =
    Ok v (mkHeap (tokens h)
                 (<[mctx o := mkMutationContext (token c) (scope c + 1)]>
                    (contexts h))
                 (values h)).
Proof.
  intros W Hv Hc Ht Hs.
  assert (mctx o ≠ Frozen) by (eapply wf_mutable_not_Frozen; eauto).
  unfold begin, getMutationContext, isMutableContext, isSubordinateContext,
    incScope, bind, readContext, readToken, writeScope, ret. by run.
Qed.

Lemma begin_immutable h v o c :
  values h !! v = Some o → contexts h !! mctx o = Some c →
  tokens h !! token c = Some false →
  begin v h =
    Ok (fresh (dom (values h)))
       (mkHeap (<[fresh (dom (tokens h)) := true]> (tokens h))
               (<[fresh (dom (contexts h)) :=
                    mkMutationContext (fresh (dom (tokens h))) 0]> (contexts h))
               (<[fresh (dom (values h)) :=
                    mkPersistent (fresh (dom (contexts h))) (content o) (slots o)]>
                  (values h))).
Proof.
  intros Hv Hc Ht. unfold begin.
  rewrite (bind_Ok _ _ _ _ _ (getMutationContext_run _ _ _ Hv)).
  rewrite (bind_Ok _ _ _ _ _ (isMutableContext_run _ _ _ _ Hc Ht)).
  rewrite (bind_Ok _ _ _ _ _ (mutable_run h)).
  rewrite (clone_context_run _ v o _
             (mkMutationContext (fresh (dom (tokens h))) 0)); proj.
  - reflexivity.
  - exact Hv.
  - apply lookup_insert_eq.
  - apply lookup_insert_eq.
Qed.

(** ** Invariant preservation *)

Lemma wf_lookup h v o : wf h → values h !! v = Some o →
  ∃ c b, contexts h !! mctx o = Some c ∧ tokens h !! token c = Some b
         ∧ -1 <= scope c.
Proof.
  intros W Hv. destruct (wf_value h v o W Hv) as [c Hc].
  destruct (wf_context h _ c W Hc) as [[b Hb] Hs]. eauto.
Qed.

Lemma wf_slots h v o : wf h → values h !! v = Some o →
  map_Forall (λ _ child, is_Some (values h !! child)) (slots o).
Proof. intros W Hv n child S. eapply wf_slot; eauto. Qed.

Lemma fresh_token_not_Frozen h : wf h → fresh (dom (tokens h)) ≠ FrozenToken.
Proof. intros W. symmetry. eapply fresh_ne, wf_frozen_token, W. Qed.

Lemma fresh_context_not_Frozen h : wf h → fresh (dom (contexts h)) ≠ Frozen.
Proof. intros W. symmetry. eapply fresh_ne, wf_frozen_context, W. Qed.

(** The heap left by [mutable()]. *)
Lemma wf_mutable h : wf h →
  wf (mkHeap (<[fresh (dom (tokens h)) := true]> (tokens h))
             (<[fresh (dom (contexts h)) :=
                  mkMutationContext (fresh (dom (tokens h))) 0]> (contexts h))
             (values h)).
Proof.
  intros W.
  assert (W1 := wf_set_token h (fresh (dom (tokens h))) true W).
  assert (W2 := λ H, wf_set_context _ (fresh (dom (contexts h)))
                       (fresh (dom (tokens h))) 0 (W1 H)).
  proj. apply W2.
  - intros E. by apply fresh_token_not_Frozen in E.
  - by apply fresh_context_not_Frozen.
  - rewrite lookup_insert_eq. eauto.
  - lia.
Qed.

(** The heap left by the clone hook. *)
Lemma wf_clone h v o k : wf h → values h !! v = Some o →
  is_Some (contexts h !! k) →
  wf (mkHeap (tokens h) (contexts h)
             (<[fresh (dom (values h)) := mkPersistent k (content o) (slots o)]>
                (values h))).
Proof. intros W Hv Hk. apply wf_set_value; eauto using wf_slots. Qed.

Lemma wf_begin_immutable h v o : wf h → values h !! v = Some o →
  wf (mkHeap (<[fresh (dom (tokens h)) := true]> (tokens h))
             (<[fresh (dom (contexts h)) :=
                  mkMutationContext (fresh (dom (tokens h))) 0]> (contexts h))
             (<[fresh (dom (values h)) :=
                  mkPersistent (fresh (dom (contexts h))) (content o) (slots o)]>
                (values h))).
Proof.
  intros W Hv.
  assert (W1 := wf_clone _ v o (fresh (dom (contexts h))) (wf_mutable h W)).
  proj. apply W1; [done|]. rewrite lookup_insert_eq. eauto.
Qed.

Lemma wf_set_scope h k c s : wf h → contexts h !! k = Some c →
  k ≠ Frozen → -1 <= s →
  wf (mkHeap (tokens h) (<[k := mkMutationContext (token c) s]> (contexts h))
             (values h)).
Proof.
  intros W Hc N Hs. apply wf_set_context; try done.
  by destruct (wf_context h k c W Hc).
Qed.

Lemma wf_close h k c : wf h → contexts h !! k = Some c →
  wf (mkHeap (<[token c := false]> (tokens h)) (contexts h) (values h)).
Proof. intros W Hc. by apply wf_set_token. Qed.

(** ** [commit] and [begin] *)

(** C1. [commit(v)] returns [v] itself and allocates no value.  On a
    primary context of scope 0 it overwrites the one shared token cell
    with [false], and after that single write every value whose context
    holds that token, the subordinate members of the batch included,
    answers [isImmutable] with [true], no value having been written to.
    On a primary context of positive scope it only decrements the scope.
    On a subordinate context it changes nothing. *)
Theorem commit_spec h v o c :
  wf h → values h !! v = Some o → contexts h !! mctx o = Some c →
  ∃ h', commit v h = Ok v h'
    ∧ values h' = values h
    ∧ (scope c = 0 →
         h' = mkHeap (<[token c := false]> (tokens h)) (contexts h) (values h)
         ∧ ∀ w ow cw,
             values h !! w = Some ow → contexts h !! mctx ow = Some cw →
             token cw = token c → isImmutable w h' = Ok true h')
    ∧ (0 < scope c →
         h' = mkHeap (tokens h)
                     (<[mctx o := mkMutationContext (token c) (scope c - 1)]>
                        (contexts h))
                     (values h))
    ∧ (scope c = -1 → h' = h).
Proof.
  intros W Hv Hc.
  destruct (wf_context h _ c W Hc) as [_ Hge].
  destruct (Z.lt_trichotomy (scope c) 0) as [Hs|[Hs|Hs]].
  - exists h. rewrite (commit_subordinate h v o c) by done.
    repeat split; intros; try done; lia.
  - eexists. rewrite (commit_close h v o c) by done.
    split; [reflexivity|]. split; [reflexivity|].
    split; [|split; intros; lia].
    intros _. split; [reflexivity|]. intros w ow cw Hw Hcw Htok.
    apply (isImmutable_run (mkHeap _ _ _) w ow cw false); proj; try done.
    rewrite Htok. apply lookup_insert_eq.
  - eexists. rewrite (commit_nested h v o c) by done.
    split; [reflexivity|]. split; [reflexivity|].
    split; [intros; lia|]. split; [done|intros; lia].
Qed.

(** C2. [begin(v)]: a mutable subordinate value is returned and the heap
    stays as it is; a mutable primary value is returned, the same
    reference, with the scope of its context one higher; an immutable
    value is cloned onto a newly allocated context of scope 0 over a newly
    allocated token that reads [true], and nothing that existed before is
    written to. *)
Theorem begin_spec h v o c b :
  wf h → values h !! v = Some o → contexts h !! mctx o = Some c →
  tokens h !! token c = Some b →
  (b = true → scope c = -1 → begin v h = Ok v h)
  ∧ (b = true → 0 <= scope c →
       begin v h =
         Ok v (mkHeap (tokens h)
                      (<[mctx o := mkMutationContext (token c) (scope c + 1)]>
                         (contexts h))
                      (values h)))
  ∧ (b = false →
       ∃ v' k t' : ref,
         values h !! v' = Datatypes.None
         ∧ contexts h !! k = Datatypes.None
         ∧ tokens h !! t' = Datatypes.None
         ∧ begin v h =
             Ok v' (mkHeap (<[t' := true]> (tokens h))
                           (<[k := mkMutationContext t' 0]> (contexts h))
                           (<[v' := mkPersistent k (content o) (slots o)]>
                              (values h)))).
Proof.
  intros W Hv Hc Ht. split; [|split].
  - intros -> Hs. by apply begin_subordinate with o c.
  - intros -> Hs. apply begin_primary with (c := c); try done. lia.
  - intros ->. eexists _, _, _. repeat split; [..|by apply begin_immutable with c];
      apply fresh_lookup.
Qed.

(** C9. What [begin] returns is a mutable value of the heap it leaves,
    with the content of the value it was given, and applying [begin] to
    it gives back that very reference: when it is a batch owner the scope
    of its context goes up by one and nothing else changes, when it is
    subordinate nothing changes at all; the second call allocates nothing
    and writes to no value and no token. *)
Theorem begin_idempotent h v o :
  wf h → values h !! v = Some o →
  ∃ v1 h1 h2 o1 c1,
    begin v h = Ok v1 h1
    ∧ values h1 !! v1 = Some o1
    ∧ content o1 = content o ∧ slots o1 = slots o
    ∧ contexts h1 !! mctx o1 = Some c1
    ∧ tokens h1 !! token c1 = Some true
    ∧ begin v1 h1 = Ok v1 h2
    ∧ values h2 = values h1
    ∧ tokens h2 = tokens h1
    ∧ (0 <= scope c1 →
         contexts h2 =
           <[mctx o1 := mkMutationContext (token c1) (scope c1 + 1)]>
             (contexts h1))
    ∧ (scope c1 = -1 → h2 = h1).
Proof.
  intros W Hv. destruct (wf_lookup h v o W Hv) as (c & b & Hc & Ht & Hge).
  destruct b.
  - destruct (decide (scope c = -1)) as [Hs|Hs].
    + exists v, h, h, o, c. rewrite (begin_subordinate h v o c) by done.
      splits; try done. intros. lia.
    + assert (mctx o ≠ Frozen) by (eapply wf_mutable_not_Frozen; eauto).
      exists v,
        (mkHeap (tokens h)
                (<[mctx o := mkMutationContext (token c) (scope c + 1)]>
                   (contexts h)) (values h)),
        (mkHeap (tokens h)
                (<[mctx o := mkMutationContext (token c) (scope c + 1 + 1)]>
                   (<[mctx o := mkMutationContext (token c) (scope c + 1)]>
                      (contexts h))) (values h)),
        o, (mkMutationContext (token c) (scope c + 1)).
      proj. rewrite lookup_insert_eq. splits; try done.
      * by apply begin_primary.
      * rewrite (begin_primary (mkHeap _ _ _) v o
                   (mkMutationContext (token c) (scope c + 1))); proj;
          [done| |done|apply lookup_insert_eq|done|lia].
        apply wf_set_scope; try done. lia.
      * intros. lia.
  - exists (fresh (dom (values h))),
      (mkHeap (<[fresh (dom (tokens h)) := true]> (tokens h))
              (<[fresh (dom (contexts h)) :=
                   mkMutationContext (fresh (dom (tokens h))) 0]> (contexts h))
              (<[fresh (dom (values h)) :=
                   mkPersistent (fresh (dom (contexts h))) (content o) (slots o)]>
                 (values h))),
      (mkHeap (<[fresh (dom (tokens h)) := true]> (tokens h))
              (<[fresh (dom (contexts h)) :=
                   mkMutationContext (fresh (dom (tokens h))) (0 + 1)]>
                 (<[fresh (dom (contexts h)) :=
                      mkMutationContext (fresh (dom (tokens h))) 0]>
                    (contexts h)))
              (<[fresh (dom (values h)) :=
                   mkPersistent (fresh (dom (contexts h))) (content o) (slots o)]>
                 (values h))),
      (mkPersistent (fresh (dom (contexts h))) (content o) (slots o)),
      (mkMutationContext (fresh (dom (tokens h))) 0).
    proj. rewrite !lookup_insert_eq. splits; try done.
    + by apply begin_immutable with c.
    + rewrite (begin_primary (mkHeap _ _ _) _
                 (mkPersistent (fresh (dom (contexts h))) (content o) (slots o))
                 (mkMutationContext (fresh (dom (tokens h))) 0)); proj;
        [done|by apply wf_begin_immutable with v|apply lookup_insert_eq..|lia].
Qed.

(** ** What [begin] and [commit] leave behind *)

Lemma begin_mutable_result h v o c :
  wf h → values h !! v = Some o → contexts h !! mctx o = Some c →
  tokens h !! token c = Some true →
  ∃ h1 c1, begin v h = Ok v h1 ∧ wf h1
    ∧ values h1 = values h ∧ tokens h1 = tokens h
    ∧ contexts h1 !! mctx o = Some c1 ∧ token c1 = token c
    ∧ (scope c = -1 → h1 = h)
    ∧ (scope c ≠ -1 → scope c1 = scope c + 1).
Proof.
  intros W Hv Hc Ht. destruct (wf_context h _ c W Hc) as [_ Hge].
  destruct (decide (scope c = -1)) as [Hs|Hs].
  - exists h, c. rewrite (begin_subordinate h v o c) by done.
    splits; try done; lia.
  - assert (mctx o ≠ Frozen) by (eapply wf_mutable_not_Frozen; eauto).
    eexists _, (mkMutationContext (token c) (scope c + 1)).
    rewrite (begin_primary h v o c) by done.
    split; [reflexivity|]. proj. rewrite lookup_insert_eq.
    splits; try done. apply wf_set_scope; try done. lia.
Qed.

Lemma begin_immutable_result h v o c :
  wf h → values h !! v = Some o → contexts h !! mctx o = Some c →
  tokens h !! token c = Some false →
  ∃ v1 h1 o1 c1, begin v h = Ok v1 h1 ∧ wf h1
    ∧ values h !! v1 = Datatypes.None
    ∧ values h1 !! v1 = Some o1
    ∧ content o1 = content o ∧ slots o1 = slots o
    ∧ contexts h1 !! mctx o1 = Some c1 ∧ scope c1 = 0
    ∧ tokens h1 !! token c1 = Some true
    ∧ values h1 !! v = Some o
    ∧ contexts h1 !! mctx o = Some c
    ∧ tokens h1 !! token c = Some false.
Proof.
  intros W Hv Hc Ht.
  assert (Hfv := fresh_ne _ _ _ Hv). assert (Hfc := fresh_ne _ _ _ Hc).
  assert (Hft := fresh_ne _ _ _ Ht).
  eexists _, _, (mkPersistent (fresh (dom (contexts h))) (content o) (slots o)),
    (mkMutationContext (fresh (dom (tokens h))) 0).
  rewrite (begin_immutable h v o c) by done.
  split; [reflexivity|]. split; [by apply wf_begin_immutable with v|].
  split; [apply fresh_lookup|]. proj.
  rewrite !lookup_insert_eq. proj. rewrite ?lookup_insert_eq.
  rewrite !lookup_insert_ne by congruence. by splits.
Qed.

Lemma commit_result h v o c :
  wf h → values h !! v = Some o → contexts h !! mctx o = Some c →
  ∃ h' c', commit v h = Ok v h' ∧ wf h'
    ∧ values h' = values h
    ∧ contexts h' !! mctx o = Some c' ∧ token c' = token c
    ∧ (scope c = 0 →
         tokens h' = <[token c := false]> (tokens h) ∧ contexts h' = contexts h)
    ∧ (scope c ≠ 0 → tokens h' = tokens h).
Proof.
  intros W Hv Hc. destruct (wf_context h _ c W Hc) as [_ Hge].
  destruct (Z.lt_trichotomy (scope c) 0) as [Hs|[Hs|Hs]].
  - exists h, c. rewrite (commit_subordinate h v o c) by done.
    splits; try done; lia.
  - eexists _, c. rewrite (commit_close h v o c) by done.
    split; [reflexivity|]. split; [by apply wf_close with (mctx o)|].
    splits; try done; lia.
  - assert (mctx o ≠ Frozen) by (eapply wf_primary_not_Frozen; eauto; lia).
    eexists _, (mkMutationContext (token c) (scope c - 1)).
    rewrite (commit_nested h v o c) by done.
    split; [reflexivity|]. proj. rewrite lookup_insert_eq.
    splits; try done; try lia. apply wf_set_scope; try done. lia.
Qed.

(** C4, amended. The sequence [begin(commit(begin(v)))] returns a value
    with the content of [v] whose context is mutable: its last step is a
    [begin].  The no-op batch that restores immutability is
    [commit(begin(v))]: on an immutable [v] it returns a newly allocated
    value with the content of [v] that is immutable, and [v] stays as it
    was. *)
Theorem roundTrip_spec h v o :
  wf h → values h !! v = Some o →
  (∃ v' h' o', roundTrip v h = Ok v' h'
     ∧ values h' !! v' = Some o'
     ∧ content o' = content o ∧ slots o' = slots o
     ∧ isMutable v' h' = Ok true h')
  ∧ (isImmutable v h = Ok true h →
     ∃ v1 h1 o1, bind (begin v) commit h = Ok v1 h1
       ∧ values h !! v1 = Datatypes.None
       ∧ values h1 !! v1 = Some o1
       ∧ content o1 = content o ∧ slots o1 = slots o
       ∧ isImmutable v1 h1 = Ok true h1
       ∧ values h1 !! v = Some o).
Proof.
  intros W Hv. destruct (wf_lookup h v o W Hv) as (c & b & Hc & Ht & Hge).
  split.
  - unfold roundTrip. destruct b.
    + destruct (begin_mutable_result h v o c W Hv Hc Ht)
        as (h1 & c1 & E1 & W1 & V1 & T1 & C1 & K1 & S1a & S1b).
      rewrite (bind_Ok _ _ _ _ _ E1).
      assert (Hv1 : values h1 !! v = Some o) by by rewrite V1.
      destruct (commit_result h1 v o c1 W1 Hv1 C1)
        as (h2 & c2 & E2 & W2 & V2 & C2 & K2 & Z2 & N2).
      rewrite (bind_Ok _ _ _ _ _ E2).
      assert (Hv2 : values h2 !! v = Some o) by by rewrite V2.
      assert (T2 : tokens h2 !! token c2 = Some true).
      { rewrite K2, K1. destruct (decide (scope c1 = 0)) as [Hz|Hz].
        - exfalso. destruct (decide (scope c = -1)) as [Hm|Hm].
          + rewrite (S1a Hm) in C1. simplify_eq. lia.
          + specialize (S1b Hm). lia.
        - by rewrite (N2 Hz), T1. }
      destruct (begin_mutable_result h2 v o c2 W2 Hv2 C2 T2)
        as (h3 & c3 & E3 & W3 & V3 & T3 & C3 & K3 & _).
      exists v, h3, o. split; [done|]. split; [by rewrite V3|].
      split; [done|]. split; [done|].
      apply isMutable_run with o c3; [by rewrite V3|done|].
      by rewrite K3, T3.
    + destruct (begin_immutable_result h v o c W Hv Hc Ht)
        as (v1 & h1 & o1 & c1 & E1 & W1 & F1 & V1 & D1 & S1 & C1 & Z1 & T1 & _).
      rewrite (bind_Ok _ _ _ _ _ E1).
      destruct (commit_result h1 v1 o1 c1 W1 V1 C1)
        as (h2 & c2 & E2 & W2 & V2 & C2 & K2 & Z2 & _).
      rewrite (bind_Ok _ _ _ _ _ E2).
      destruct (Z2 Z1) as [T2 X2].
      assert (Hv2 : values h2 !! v1 = Some o1) by by rewrite V2.
      assert (Ht2 : tokens h2 !! token c2 = Some false)
        by (rewrite K2, T2; apply lookup_insert_eq).
      destruct (begin_immutable_result h2 v1 o1 c2 W2 Hv2 C2 Ht2)
        as (v3 & h3 & o3 & c3 & E3 & W3 & F3 & V3 & D3 & S3 & C3 & Z3 & T3 & _).
      exists v3, h3, o3. split; [done|]. split; [done|].
      split; [congruence|]. split; [congruence|].
      by apply isMutable_run with o3 c3.
  - intros I. assert (Hb := isImmutable_inv h v o c true h Hv Hc I).
    rewrite Ht in Hb. injection Hb as ->.
    destruct (begin_immutable_result h v o c W Hv Hc Ht)
      as (v1 & h1 & o1 & c1 & E1 & W1 & F1 & V1 & D1 & S1 & C1 & Z1 & T1 & U1 & _).
    rewrite (bind_Ok _ _ _ _ _ E1).
    destruct (commit_result h1 v1 o1 c1 W1 V1 C1)
      as (h2 & c2 & E2 & W2 & V2 & C2 & K2 & Z2 & _).
    destruct (Z2 Z1) as [T2 X2].
    exists v1, h2, o1. split; [done|]. split; [done|].
    split; [by rewrite V2|]. split; [done|]. split; [done|].
    split; [|by rewrite V2].
    apply (isImmutable_run h2 v1 o1 c2 false); [by rewrite V2|done|].
    rewrite K2, T2. apply lookup_insert_eq.
Qed.

(** Two separate calls of [begin] on an immutable value return two
    different clones: the identity of C9 is about feeding [begin] its own
    result, not about calling it twice on the same argument. *)
Remark begin_twice_distinct h v o :
  wf h → values h !! v = Some o → isImmutable v h = Ok true h →
  ∃ v1 h1 v2 h2, begin v h = Ok v1 h1 ∧ begin v h1 = Ok v2 h2 ∧ v1 ≠ v2.
Proof.
  intros W Hv I. destruct (wf_lookup h v o W Hv) as (c & b & Hc & Ht & _).
  assert (Hb := isImmutable_inv h v o c true h Hv Hc I).
  rewrite Ht in Hb. injection Hb as ->.
  destruct (begin_immutable_result h v o c W Hv Hc Ht)
    as (v1 & h1 & o1 & c1 & E1 & W1 & _ & V1 & _ & _ & _ & _ & _ & U1 & U2 & U3).
  destruct (begin_immutable_result h1 v o c W1 U1 U2 U3)
    as (v2 & h2 & _ & _ & E2 & _ & F2 & _).
  exists v1, h1, v2, h2. split; [done|]. split; [done|].
  intros ->. rewrite V1 in F2. discriminate.
Qed.

(** ** Recruiting a child into a batch *)

Lemma asSubordinateContext_primary h k c :
  contexts h !! k = Some c → 0 <= scope c →
  asSubordinateContext k h =
    Ok (fresh (dom (contexts h)))
       (mkHeap (tokens h)
               (<[fresh (dom (contexts h)) := mkMutationContext (token c) (-1)]>
                  (contexts h))
               (values h)).
Proof.
  intros. unfold asSubordinateContext, bind, readContext, newMutationContext.
  by run.
Qed.

Lemma asSubordinateContext_subordinate h k c :
  contexts h !! k = Some c → scope c < 0 → asSubordinateContext k h = Ok k h.
Proof. intros. unfold asSubordinateContext, bind, readContext, ret. by run. Qed.

Lemma wf_asSubordinate h k c : wf h → contexts h !! k = Some c →
  wf (mkHeap (tokens h)
             (<[fresh (dom (contexts h)) := mkMutationContext (token c) (-1)]>
                (contexts h))
             (values h)).
Proof.
  intros W Hc. apply wf_set_context; try done.
  - by apply fresh_context_not_Frozen.
  - by destruct (wf_context h k c W Hc).
Qed.

(** C7. With an owner whose context is mutable, [modifyAsSubordinate]
    returns the child itself exactly when the child's context is
    subordinate and holds the owner's token, and then nothing is written;
    in every other case it returns a newly allocated clone, with the
    child's content, whose context has scope [-1] and holds the owner's
    token, and the child stays as it was. *)
Theorem modifyAsSubordinate_spec h context v o c k p :
  wf h → values h !! v = Some o → contexts h !! mctx o = Some c →
  contextOf context h = Ok k h → contexts h !! k = Some p →
  tokens h !! token p = Some true →
  ∃ v' h', modifyAsSubordinate context v h = Ok v' h'
    ∧ (v' = v ↔ scope c = -1 ∧ token c = token p)
    ∧ (v' = v → h' = h)
    ∧ (v' ≠ v →
         values h !! v' = Datatypes.None
         ∧ values h' !! v = Some o
         ∧ ∃ o' c', values h' !! v' = Some o'
             ∧ content o' = content o ∧ slots o' = slots o
             ∧ contexts h' !! mctx o' = Some c'
             ∧ scope c' = -1 ∧ token c' = token p).
Proof.
  intros W Hv Hc Hk Hp Ht.
  destruct (wf_context h k p W Hp) as [_ Hge].
  assert (Hf := fresh_ne _ _ _ Hv).
  destruct (decide (scope c = -1 ∧ token c = token p)) as [[Hs Hr]|Hn].
  - exists v, h. split; [|by repeat split].
    unfold modifyAsSubordinate, getMutationContext, isMutableContext,
      isRelatedContext, isSubordinateContext, bind, readContext, readToken, ret.
    by run.
  - assert (E : ∀ f, bind (getMutationContext v) (λ mctxChild,
                bind (contextOf context) (λ mctxParent,
                bind (isMutableContext mctxParent) (λ m,
                if m then
                  bind (isRelatedContext mctxChild mctxParent) (λ r,
                  bind (if r then isSubordinateContext mctxChild else ret false)
                    (λ s, if s then ret v else f mctxParent))
                else throwArgumentError "context"
                  "The first argument must refer to a mutable object or mutation context"))) h
              = f k h).
    { intros f. unfold getMutationContext, isMutableContext, isRelatedContext,
        isSubordinateContext, bind, readContext, readToken, ret. run.
      destruct (decide (token c = token p)) as [Hr|Hr]; run; [|done].
      assert (scope c ≠ -1) by tauto. by run. }
    unfold modifyAsSubordinate. rewrite E. clear E.
    destruct (Z.le_gt_cases 0 (scope p)) as [Hs|Hs].
    + rewrite (bind_Ok _ _ _ _ _ (asSubordinateContext_primary h k p Hp Hs)).
      rewrite (clone_context_run (mkHeap _ _ _) v o _
                 (mkMutationContext (token p) (-1))); proj;
        [|done|apply lookup_insert_eq|done].
      eexists _, _. split; [reflexivity|]. split; [|split].
      * split; [intros E; by symmetry in E|tauto].
      * intros E. by symmetry in E.
      * intros _. split; [apply fresh_lookup|]. proj.
        split; [by rewrite lookup_insert_ne|].
        exists (mkPersistent (fresh (dom (contexts h))) (content o) (slots o)),
               (mkMutationContext (token p) (-1)).
        proj. rewrite !lookup_insert_eq. by repeat split.
    + rewrite (bind_Ok _ _ _ _ _ (asSubordinateContext_subordinate h k p Hp Hs)).
      rewrite (clone_context_run h v o k p) by done.
      eexists _, _. split; [reflexivity|]. split; [|split].
      * split; [intros E; by symmetry in E|tauto].
      * intros E. by symmetry in E.
      * intros _. split; [apply fresh_lookup|]. proj.
        split; [by rewrite lookup_insert_ne|].
        exists (mkPersistent k (content o) (slots o)), p.
        rewrite lookup_insert_eq. proj. repeat split; try done. lia.
Qed.

(** C3, amended. With an owner whose context is mutable, [modifyAsEqual]
    returns the child itself, and writes nothing, when the child's context
    holds the owner's token and either the owner's context is subordinate
    or the child's context is primary; a child that is the batch owner on
    that token therefore keeps its primary context.  In every other case
    it returns a newly allocated clone of the child that carries the
    owner's own context. *)
Theorem modifyAsEqual_spec h context v o c k p :
  values h !! v = Some o → contexts h !! mctx o = Some c →
  contextOf context h = Ok k h → contexts h !! k = Some p →
  tokens h !! token p = Some true →
  ∃ v' h', modifyAsEqual context v h = Ok v' h'
    ∧ (token c = token p ∧ (scope p = -1 ∨ 0 <= scope c) → v' = v ∧ h' = h)
    ∧ (¬ (token c = token p ∧ (scope p = -1 ∨ 0 <= scope c)) →
         values h !! v' = Datatypes.None
         ∧ h' = mkHeap (tokens h) (contexts h)
                       (<[v' := mkPersistent k (content o) (slots o)]> (values h))).
Proof.
  intros Hv Hc Hk Hp Ht.
  destruct (decide (token c = token p ∧ (scope p = -1 ∨ 0 <= scope c)))
    as [[Hr Hs]|Hn].
  - exists v, h. split; [|split; [done|tauto]].
    unfold modifyAsEqual, getMutationContext, isMutableContext,
      isRelatedContext, isSubordinateContext, isPrimaryContext, bind,
      readContext, readToken, ret. run.
    destruct (decide (scope p = -1)); run; [done|].
    assert (0 <= scope c) by tauto. by run.
  - exists (fresh (dom (values h))),
      (mkHeap (tokens h) (contexts h)
              (<[fresh (dom (values h)) := mkPersistent k (content o) (slots o)]>
                 (values h))).
    split; [|split; [tauto|intros _; split; [apply fresh_lookup|done]]].
    rewrite <- (clone_context_run h v o k p) by done.
    unfold modifyAsEqual, getMutationContext, isMutableContext,
      isRelatedContext, isSubordinateContext, isPrimaryContext, bind,
      readContext, readToken, ret. run.
    destruct (decide (token c = token p)) as [Hr|Hr]; run; [|done].
    assert (scope p ≠ -1) by tauto. assert (scope c < 0) by lia. by run.
Qed.

(** ** Properties *)

Lemma modifyProperty_immutable h parent name po pc :
  values h !! parent = Some po → contexts h !! mctx po = Some pc →
  tokens h !! token pc = Some false →
  modifyProperty parent name h =
    Throw (InvalidOperation "Cannot modify properties of an immutable object") h.
Proof. intros. unfold_ops. by run. Qed.

(** C6. [modifyProperty] on an immutable parent throws the invalid
    operation error and leaves the heap alone.  On a mutable parent it
    returns a child whose context holds the parent's token: the value in
    the slot itself, nothing being written, when that value is already
    related; otherwise a newly allocated clone of it, on a context of
    scope [-1], which is also written to the slot, the old child staying
    as it was. *)
Theorem modifyProperty_spec h parent name po pc b :
  wf h → values h !! parent = Some po → contexts h !! mctx po = Some pc →
  tokens h !! token pc = Some b →
  (b = false →
     modifyProperty parent name h =
       Throw (InvalidOperation "Cannot modify properties of an immutable object") h)
  ∧ (b = true → ∀ child co cc,
       slots po !! name = Some child → values h !! child = Some co →
       contexts h !! mctx co = Some cc →
       ∃ r h' ro rc,
         modifyProperty parent name h = Ok r h'
         ∧ values h' !! r = Some ro ∧ contexts h' !! mctx ro = Some rc
         ∧ token rc = token pc
         ∧ (token cc = token pc → r = child ∧ h' = h)
         ∧ (token cc ≠ token pc →
              values h !! r = Datatypes.None
              ∧ content ro = content co ∧ slots ro = slots co
              ∧ scope rc = -1
              ∧ values h' !! child = Some co
              ∧ values h' !! parent =
                  Some (mkPersistent (mctx po) (content po)
                                     (<[name := r]> (slots po))))).
Proof.
  intros W Hp Hpc Ht. split.
  - intros ->. by apply modifyProperty_immutable with po pc.
  - intros -> child co cc Hs Hv Hcc.
    destruct (wf_context h _ pc W Hpc) as [_ Hge].
    destruct (decide (token cc = token pc)) as [Hr|Hr].
    + exists child, h, co, cc.
      split; [unfold_ops; by run|]. by repeat split.
    + assert (Hfp := fresh_ne _ _ _ Hp). assert (Hfc := fresh_ne _ _ _ Hv).
      assert (child ≠ parent) by (intros ->; simplify_eq; done).
      destruct (Z.le_gt_cases 0 (scope pc)) as [Hsc|Hsc].
      * eexists (fresh (dom (values h))), _,
          (mkPersistent (fresh (dom (contexts h))) (content co) (slots co)),
          (mkMutationContext (token pc) (-1)).
        split; [unfold_ops; run; reflexivity|]. proj.
        rewrite lookup_insert_ne, lookup_insert_eq by congruence. proj.
        rewrite lookup_insert_eq.
        split; [done|]. split; [done|]. split; [done|]. split; [done|].
        intros _. rewrite fresh_lookup.
        rewrite !lookup_insert_ne by congruence.
        rewrite lookup_insert_eq. by repeat split.
      * eexists (fresh (dom (values h))), _,
          (mkPersistent (mctx po) (content co) (slots co)), pc.
        split; [unfold_ops; run; reflexivity|]. proj.
        rewrite lookup_insert_ne, lookup_insert_eq by congruence. proj.
        split; [done|]. split; [done|]. split; [done|]. split; [done|].
        intros _. rewrite fresh_lookup.
        rewrite !lookup_insert_ne by congruence.
        rewrite lookup_insert_eq. repeat split; try done. lia.
Qed.

(** ** [update] *)

(** Overwriting the data of the argument is a mutation procedure. *)
Lemma setContent_MutationProcedure (d : Data) : MutationProcedure (setContent d).
Proof.
  intros h v o c W Hv Hc Ht. eexists. unfold setContent. rewrite Hv.
  split; [reflexivity|]. split; [|split; [|split]]; proj.
  - apply wf_set_value; eauto using wf_slots.
  - eexists. rewrite lookup_insert_eq. by split.
  - done.
  - intros w ow Hw I. destruct (decide (v = w)) as [->|N].
    + assert (K := isImmutable_inv h w o c true h Hv Hc I).
      rewrite Ht in K. discriminate.
    + by rewrite lookup_insert_ne.
Qed.

(** With a mutation procedure: [update(mutate, v)] runs [mutate] on the
    value that [begin] returned, where that value is mutable, and on an
    immutable [v] it returns a value other than [v] that is immutable, [v]
    being as it was before the call. *)
Theorem update_spec h (mutate : UpdaterFn Data) v o :
  wf h → values h !! v = Some o → MutationProcedure mutate →
  (∃ v1 h1, begin v h = Ok v1 h1
     ∧ isMutable v1 h1 = Ok true h1
     ∧ update mutate v h = bind (mutate v1) (λ _, commit v1) h1)
  ∧ (isImmutable v h = Ok true h →
     ∃ v' h', update mutate v h = Ok v' h'
       ∧ isImmutable v' h' = Ok true h'
       ∧ v' ≠ v
       ∧ values h' !! v = Some o).
Proof.
  intros W Hv P. destruct (wf_lookup h v o W Hv) as (c & b & Hc & Ht & Hge).
  split.
  - destruct b.
    + destruct (begin_mutable_result h v o c W Hv Hc Ht)
        as (h1 & c1 & E1 & W1 & V1 & T1 & C1 & K1 & _).
      exists v, h1. split; [done|]. split.
      * apply isMutable_run with o c1; [by rewrite V1|done|].
        by rewrite K1, T1.
      * unfold update. by rewrite (bind_Ok _ _ _ _ _ E1).
    + destruct (begin_immutable_result h v o c W Hv Hc Ht)
        as (v1 & h1 & o1 & c1 & E1 & W1 & F1 & V1 & D1 & S1 & C1 & Z1 & T1 & _).
      exists v1, h1. split; [done|]. split.
      * by apply isMutable_run with o1 c1.
      * unfold update. by rewrite (bind_Ok _ _ _ _ _ E1).
  - intros I. assert (Hb := isImmutable_inv h v o c true h Hv Hc I).
    rewrite Ht in Hb. injection Hb as ->.
    destruct (begin_immutable_result h v o c W Hv Hc Ht)
      as (v1 & h1 & o1 & c1 & E1 & W1 & F1 & V1 & D1 & S1 & C1 & Z1 & T1
          & U1 & U2 & U3).
    destruct (P h1 v1 o1 c1 W1 V1 C1 T1)
      as (h2 & E2 & W2 & (o2 & V2 & M2) & C2 & Fr).
    rewrite <- M2 in C2.
    exists v1, (mkHeap (<[token c1 := false]> (tokens h2)) (contexts h2) (values h2)).
    split; [|split; [|split]].
    + unfold update. rewrite (bind_Ok _ _ _ _ _ E1).
      rewrite (bind_Ok _ _ _ _ _ E2). by apply commit_close with o2.
    + apply (isImmutable_run (mkHeap _ _ _) v1 o2 c1 false); proj; try done.
      apply lookup_insert_eq.
    + intros ->. rewrite Hv in F1. discriminate.
    + proj. apply Fr; [done|]. by apply (isImmutable_run h1 v o c false).
Qed.

(** ** Totality *)

Lemma is_Some_insert {X} (m : gmap ref X) k x j :
  is_Some (m !! j) → is_Some (<[k := x]> m !! j).
Proof.
  intros H. destruct (decide (k = j)) as [->|N].
  - rewrite lookup_insert_eq. eauto.
  - by rewrite lookup_insert_ne.
Qed.

Lemma ext_refl h : ext h h.
Proof. by split. Qed.

Lemma ext_trans h1 h2 h3 : ext h1 h2 → ext h2 h3 → ext h1 h3.
Proof. intros [A B] [C D]. split; eauto. Qed.

Lemma ext_set_token h T : ext h (mkHeap T (contexts h) (values h)).
Proof. by split. Qed.

Lemma ext_set_context h k x :
  ext h (mkHeap (tokens h) (<[k := x]> (contexts h)) (values h)).
Proof. split; proj; [intros; by apply is_Some_insert|done]. Qed.

Lemma ext_set_value h v x :
  ext h (mkHeap (tokens h) (contexts h) (<[v := x]> (values h))).
Proof. split; proj; [done|intros; by apply is_Some_insert]. Qed.

Lemma good_bind {A B} (R : A → Heap Data → Prop) (R' : B → Heap Data → Prop)
    (m : M Data A) (f : A → M Data B) h :
  good R m h →
  (∀ a h1, wf h1 → ext h h1 → R a h1 → good R' (f a) h1) →
  good R' (bind m f) h.
Proof.
  intros (a & h1 & E & W & X & Ra) K.
  destruct (K a h1 W X Ra) as (b & h2 & E2 & W2 & X2 & Rb).
  exists b, h2. rewrite (bind_Ok _ _ _ _ _ E). eauto using ext_trans.
Qed.

Lemma good_weaken {A} (R R' : A → Heap Data → Prop) (m : M Data A) h :
  good R m h → (∀ a h', R a h' → R' a h') → good R' m h.
Proof. intros (a & h' & ? & ? & ? & ?) K. exists a, h'. eauto. Qed.

(** An operation that only reads. *)
Lemma good_read {A} (R : A → Heap Data → Prop) (m : M Data A) h a :
  wf h → m h = Ok a h → R a h → good R m h.
Proof. intros. exists a, h. eauto using ext_refl. Qed.

(** A reading step followed by the rest. *)
Lemma good_step {A B} (R : B → Heap Data → Prop) (m : M Data A)
    (f : A → M Data B) h a :
  m h = Ok a h → good R (f a) h → good R (bind m f) h.
Proof.
  intros E (b & h' & ? & ?). exists b, h'. by rewrite (bind_Ok _ _ _ _ _ E).
Qed.

Lemma good_safe {A} (R : A → Heap Data → Prop) (m : M Data A) h :
  good R m h → safe m h.
Proof. intros (a & h' & ? & ? & _). exists a, h'. eauto. Qed.

Lemma isMutableContext_total h k : wf h → isContext k h →
  ∃ b, isMutableContext k h = Ok b h.
Proof.
  intros W [c Hc]. destruct (wf_context h k c W Hc) as [[b Hb] _].
  exists b. by apply isMutableContext_run with c.
Qed.

Lemma getMutationContext_total h v : wf h → isValue v h →
  ∃ k, getMutationContext v h = Ok k h ∧ isContext k h.
Proof.
  intros W [o Ho]. exists (mctx o). split.
  - by apply getMutationContext_run.
  - by apply wf_value with v.
Qed.

Lemma tokenOf_total h v : wf h → isValue v h → ∃ t, tokenOf v h = Ok t h.
Proof.
  intros W [o Ho]. destruct (wf_value h v o W Ho) as [c Hc].
  exists (token c). unfold tokenOf, getMutationContext, bind, readContext, ret.
  by run.
Qed.

Lemma isMutable_total h v : wf h → isValue v h → ∃ b, isMutable v h = Ok b h.
Proof.
  intros W [o Ho]. destruct (wf_lookup h v o W Ho) as (c & b & Hc & Ht & _).
  exists b. by apply isMutable_run with o c.
Qed.

Lemma mutable_good h : wf h → good isContext mutable h.
Proof.
  intros W. eexists _, _. split; [apply mutable_run|].
  split; [by apply wf_mutable|]. split.
  - apply ext_trans with (mkHeap (<[fresh (dom (tokens h)) := true]> (tokens h))
                                 (contexts h) (values h)).
    + apply ext_set_token.
    + apply (ext_set_context (mkHeap _ _ _)).
  - unfold isContext. proj. rewrite lookup_insert_eq. eauto.
Qed.

Lemma asSubordinateContext_good h k : wf h → isContext k h →
  good isContext (asSubordinateContext k) h.
Proof.
  intros W [c Hc]. destruct (Z.le_gt_cases 0 (scope c)) as [Hs|Hs].
  - eexists _, _. split; [by apply asSubordinateContext_primary|].
    split; [by apply wf_asSubordinate with k|].
    split; [apply ext_set_context|].
    unfold isContext. proj. rewrite lookup_insert_eq. eauto.
  - apply good_read with k; [done| |by exists c].
    by apply asSubordinateContext_subordinate with c.
Qed.

Lemma getSubordinateContext_good h v : wf h → isValue v h →
  good isContext (getSubordinateContext v) h.
Proof.
  intros W Hv. destruct (getMutationContext_total h v W Hv) as (k & E & Hk).
  unfold getSubordinateContext. apply good_step with k; [done|].
  by apply asSubordinateContext_good.
Qed.

Lemma selectContext_good h pctx : wf h → validPreferred h pctx →
  good isContext (selectContext pctx) h.
Proof.
  intros W V.
  assert (F : good isContext (ret Frozen) h).
  { apply good_read with Frozen; [done..|]. exists (mkMutationContext FrozenToken (-1)).
    by apply wf_frozen_context. }
  destruct pctx as [|[]|k|v]; unfold selectContext; try done.
  - by apply mutable_good.
  - destruct (isMutableContext_total h k W V) as [b E].
    apply good_step with b; [done|]. destruct b; [|done].
    by apply good_read with k.
  - by apply getSubordinateContext_good.
Qed.

Lemma cloneHook_good h v k : wf h → isValue v h → isContext k h →
  good isValue (cloneHook v k) h.
Proof.
  intros W [o Ho] Hk. eexists _, _. unfold cloneHook. rewrite Ho.
  split; [reflexivity|]. split; [by apply wf_clone with v|].
  split; [apply ext_set_value|].
  unfold isValue. proj. rewrite lookup_insert_eq. eauto.
Qed.

Lemma clone_good h v pctx : wf h → isValue v h → validPreferred h pctx →
  good isValue (clone v pctx) h.
Proof.
  intros W Hv V. unfold clone.
  apply good_bind with (R := isContext); [by apply selectContext_good|].
  intros k h1 W1 [_ X1] Hk. apply cloneHook_good; auto. by apply X1.
Qed.

Lemma begin_good h v : wf h → isValue v h → good isValue (begin v) h.
Proof.
  intros W [o Ho]. destruct (wf_lookup h v o W Ho) as (c & b & Hc & Ht & Hge).
  destruct b.
  - destruct (decide (scope c = -1)) as [Hs|Hs].
    + apply good_read with v; [done| |by exists o].
      by apply begin_subordinate with o c.
    + assert (mctx o ≠ Frozen) by (eapply wf_mutable_not_Frozen; eauto).
      eexists _, _. split; [by apply begin_primary|].
      split; [apply wf_set_scope; try done; lia|].
      split; [apply ext_set_context|]. by exists o.
  - destruct (mutable_good h W) as (k & h1 & E1 & W1 & X1 & K1).
    unfold begin.
    apply good_step with (mctx o); [by apply getMutationContext_run|].
    apply good_step with false; [by apply isMutableContext_run with c|].
    apply good_bind with (R := isContext); [by apply mutable_good|].
    intros k' h1' W1' [_ X1'] Hk'. apply clone_good; auto.
    apply X1'. by exists o.
Qed.

Lemma commit_good h v : wf h → isValue v h →
  good (λ r h', r = v ∧ isValue v h') (commit v) h.
Proof.
  intros W [o Ho]. destruct (wf_value h v o W Ho) as [c Hc].
  destruct (commit_result h v o c W Ho Hc) as (h' & c' & E & W' & V & C & _).
  exists v, h'. split; [done|]. split; [done|]. split; [|split; [done|]].
  - split.
    + intros k [x Hx]. destruct (wf_context h _ c W Hc) as [_ Hge].
      destruct (Z.lt_trichotomy (scope c) 0) as [Hs|[Hs|Hs]].
      * rewrite (commit_subordinate h v o c) in E by done. simplify_eq. eauto.
      * rewrite (commit_close h v o c) in E by done. simplify_eq. proj. eauto.
      * rewrite (commit_nested h v o c) in E by done. simplify_eq. proj.
        apply is_Some_insert. eauto.
    + intros w. unfold isValue. by rewrite V.
  - unfold isValue. rewrite V. eauto.
Qed.

Lemma commitContext_good h k : wf h → isContext k h →
  good (λ _ _, True) (commitContext k) h.
Proof.
  intros W [c Hc]. unfold commitContext.
  apply good_step with (0 <=? scope c); [by apply isPrimaryContext_run|].
  destruct (0 <=? scope c).
  - eexists _, _. split; [by apply close_run|].
    split; [by apply wf_close with k|]. split; [apply ext_set_token|done].
  - by apply good_read with tt.
Qed.

Lemma ensureContext_good h k v : wf h → isContext k h → isValue v h →
  good isValue (ensureContext k v) h.
Proof.
  intros W Hk Hv. destruct (getMutationContext_total h v W Hv) as (vc & E & _).
  unfold ensureContext. apply good_step with vc; [done|]. case_bool_decide.
  - by apply good_read with v.
  - by apply cloneHook_good.
Qed.

Lemma withMutability_good h pctx v : wf h → validPreferred h pctx → isValue v h →
  good isValue (withMutability pctx v) h.
Proof.
  intros W V Hv.
  assert (F : isContext Frozen h).
  { exists (mkMutationContext FrozenToken (-1)). by apply wf_frozen_context. }
  destruct pctx as [|b|k|p]; unfold withMutability.
  - by apply cloneHook_good.
  - destruct (isMutable_total h v W Hv) as [m E].
    apply good_step with m; [done|]. case_bool_decide.
    + by apply good_read with v.
    + apply good_bind with (R := isContext).
      * destruct b; [by apply mutable_good|by apply good_read with Frozen].
      * intros k h1 W1 [_ X1] Hk. apply cloneHook_good; auto. by apply X1.
  - destruct (getMutationContext_total h v W Hv) as (vc & E & [x Hx]).
    destruct V as [y Hy].
    apply good_step with vc; [done|].
    apply good_step with (bool_decide (token y = token x));
      [by apply isRelatedContext_run|].
    case_bool_decide.
    + by apply good_read with v.
    + apply cloneHook_good; auto. by exists y.
  - destruct (tokenOf_total h p W V) as [tp Ep].
    destruct (tokenOf_total h v W Hv) as [tv Ev].
    apply good_step with (bool_decide (tp = tv)).
    { unfold areContextsRelated. rewrite (bind_Ok _ _ _ _ _ Ep).
      by rewrite (bind_Ok _ _ _ _ _ Ev). }
    case_bool_decide.
    + by apply good_read with v.
    + apply good_bind with (R := isContext).
      * by apply getSubordinateContext_good.
      * intros k h1 W1 [_ X1] Hk. apply cloneHook_good; auto. by apply X1.
Qed.

Lemma update_good h (mutate : UpdaterFn Data) v : wf h → isValue v h →
  (∀ h1 x, wf h1 → isValue x h1 → good (λ _ _, True) (mutate x) h1) →
  good isValue (update mutate v) h.
Proof.
  intros W Hv P. unfold update.
  apply good_bind with (R := isValue); [by apply begin_good|].
  intros v1 h1 W1 X1 Hv1.
  apply good_bind with (R := λ _ _, True); [by apply P|].
  intros _ h2 W2 [_ X2] _.
  apply good_weaken with (R := λ r h', r = v1 ∧ isValue v1 h').
  - apply commit_good; [done|]. by apply X2.
  - by intros r h' [-> ?].
Qed.

Lemma contextOf_total h context : wf h → validOwner h context →
  ∃ k, contextOf context h = Ok k h ∧ isContext k h.
Proof.
  intros W V. destruct context as [k|v]; [by exists k|].
  by apply getMutationContext_total.
Qed.

Lemma modifyAsSubordinate_good h context v k : wf h → isValue v h →
  contextOf context h = Ok k h → isMutableContext k h = Ok true h →
  isContext k h → good isValue (modifyAsSubordinate context v) h.
Proof.
  intros W Hv Ek Em [p Hp].
  destruct (getMutationContext_total h v W Hv) as (vc & E & [c Hc]).
  unfold modifyAsSubordinate.
  apply good_step with vc; [done|]. apply good_step with k; [done|].
  apply good_step with true; [done|].
  apply good_step with (bool_decide (token c = token p));
    [by apply isRelatedContext_run|].
  apply good_step with (bool_decide (token c = token p) && (scope c =? -1)).
  { case_bool_decide; [by apply isSubordinateContext_run|done]. }
  destruct (_ && _).
  - by apply good_read with v.
  - apply good_bind with (R := isContext).
    + apply asSubordinateContext_good; [done|by exists p].
    + intros k' h1 W1 [_ X1] Hk'. apply clone_good; auto. by apply X1.
Qed.

Lemma modifyAsEqual_good h context v k : wf h → isValue v h →
  contextOf context h = Ok k h → isMutableContext k h = Ok true h →
  isContext k h → good isValue (modifyAsEqual context v) h.
Proof.
  intros W Hv Ek Em [p Hp].
  destruct (getMutationContext_total h v W Hv) as (vc & E & [c Hc]).
  unfold modifyAsEqual.
  apply good_step with vc; [done|]. apply good_step with k; [done|].
  apply good_step with true; [done|].
  apply good_step with (bool_decide (token c = token p));
    [by apply isRelatedContext_run|].
  apply good_step with (bool_decide (token c = token p)
                        && ((scope p =? -1) || (0 <=? scope c))).
  { case_bool_decide; [|done].
    rewrite (bind_Ok _ _ _ _ _ (isSubordinateContext_run _ _ _ Hp)).
    destruct (scope p =? -1); [done|]. by apply isPrimaryContext_run. }
  destruct (_ && _).
  - by apply good_read with v.
  - apply clone_good; auto. by exists p.
Qed.

Lemma modifyAs_throw h context v k : isValue v h →
  contextOf context h = Ok k h → isMutableContext k h = Ok false h →
  raisesArgumentError (modifyAsSubordinate context v) h
  ∧ raisesArgumentError (modifyAsEqual context v) h.
Proof.
  intros [o Ho] Ek Em. split; eexists _, _, h.
  - unfold modifyAsSubordinate.
    rewrite (bind_Ok _ _ _ _ _ (getMutationContext_run _ _ _ Ho)).
    rewrite (bind_Ok _ _ _ _ _ Ek). by rewrite (bind_Ok _ _ _ _ _ Em).
  - unfold modifyAsEqual.
    rewrite (bind_Ok _ _ _ _ _ (getMutationContext_run _ _ _ Ho)).
    rewrite (bind_Ok _ _ _ _ _ Ek). by rewrite (bind_Ok _ _ _ _ _ Em).
Qed.

Lemma modifyProperty_good h parent name o child : wf h →
  values h !! parent = Some o → slots o !! name = Some child →
  isImmutable parent h = Ok false h →
  good isValue (modifyProperty parent name) h.
Proof.
  intros W Hp Hs I.
  destruct (wf_slot h parent o name child W Hp Hs) as [co Hco].
  destruct (wf_value h parent o W Hp) as [pc Hpc].
  destruct (wf_value h child co W Hco) as [cc Hcc].
  unfold modifyProperty. apply good_step with false; [done|].
  apply good_step with child.
  { unfold getProperty. by rewrite Hp, Hs. }
  apply good_step with (mctx co); [by apply getMutationContext_run|].
  apply good_step with (mctx o); [by apply getMutationContext_run|].
  apply good_step with (bool_decide (token cc = token pc));
    [by apply isRelatedContext_run|].
  case_bool_decide.
  - apply good_read with child; [done..|by exists co].
  - apply good_bind with (R := isValue).
    + apply clone_good; [done|by exists co|by exists o].
    + intros r h1 W1 [_ X1] Hr.
      destruct (X1 parent) as [o1 Ho1]; [by exists o|].
      eexists r, _. unfold setProperty, bind, ret. rewrite Ho1.
      split; [reflexivity|]. split; [|split; [apply ext_set_value|]].
      * apply wf_set_value; [done|by apply wf_value with parent|].
        intros n x Hx. destruct (decide (name = n)) as [->|N].
        -- rewrite lookup_insert_eq in Hx. by simplify_eq.
        -- rewrite lookup_insert_ne in Hx by done.
           by apply wf_slot with parent o1 n.
      * unfold isValue. proj. by apply is_Some_insert.
Qed.

(** X23. On a well-formed heap, with arguments that are objects of the
    heap, for the operations on contexts and persistent values:
    [modifyAsSubordinate] and [modifyAsEqual] throw the argument error
    exactly when the context they are given, or the context of the owner
    they are given, is not mutable, and return otherwise;
    [modifyProperty] throws the invalid operation error on an immutable
    parent and returns on a mutable one; every other one of these
    operations returns.  Each returning operation leaves a well-formed
    heap.  [update] returns provided the procedure it runs does. *)
Theorem failure_conditions h :
  wf h →
  (∀ context v, validOwner h context → isValue v h →
     ∃ b, bind (contextOf context) isMutableContext h = Ok b h
       ∧ (raisesArgumentError (modifyAsSubordinate context v) h ↔ b = false)
       ∧ (raisesArgumentError (modifyAsEqual context v) h ↔ b = false)
       ∧ (b = true → safe (modifyAsSubordinate context v) h
                     ∧ safe (modifyAsEqual context v) h))
  ∧ (∀ parent name o child,
       values h !! parent = Some o → slots o !! name = Some child →
       (isImmutable parent h = Ok true h →
          raisesInvalidOperation (modifyProperty parent name) h)
       ∧ (isImmutable parent h = Ok false h →
          safe (modifyProperty parent name) h))
  ∧ safe mutable h ∧ safe immutable h
  ∧ (∀ pctx, validPreferred h pctx → safe (selectContext pctx) h)
  ∧ (∀ k, isContext k h →
       safe (isMutableContext k) h ∧ safe (isImmutableContext k) h
       ∧ safe (isPrimaryContext k) h ∧ safe (isSubordinateContext k) h
       ∧ safe (asSubordinateContext k) h ∧ safe (commitContext k) h)
  ∧ (∀ k1 k2, isContext k1 h → isContext k2 h → safe (isRelatedContext k1 k2) h)
  ∧ (∀ v, isValue v h →
       safe (getMutationContext v) h ∧ safe (getSubordinateContext v) h
       ∧ safe (isMutable v) h ∧ safe (isImmutable v) h
       ∧ safe (begin v) h ∧ safe (commit v) h)
  ∧ (∀ v w, isValue v h → isValue w h → safe (areContextsRelated v w) h)
  ∧ (∀ k v, isContext k h → isValue v h →
       safe (hasRelatedContext k v) h ∧ safe (ensureContext k v) h)
  ∧ (∀ pctx v, validPreferred h pctx → isValue v h →
       safe (clone v pctx) h ∧ safe (withMutability pctx v) h)
  ∧ (∀ (mutate : UpdaterFn Data) v, isValue v h →
       (∀ h1 x, wf h1 → isValue x h1 → good (λ _ _, True) (mutate x) h1) →
       safe (update mutate v) h).
Proof.
  intros W.
  assert (R : ∀ A (m : M Data A) a, m h = Ok a h → safe m h)
    by (intros A m a E; by exists a, h).
  splits.
  - intros context v V Hv.
    destruct (contextOf_total h context W V) as (k & Ek & Hk).
    destruct (isMutableContext_total h k W Hk) as [b Eb].
    exists b. rewrite (bind_Ok _ _ _ _ _ Ek). split; [done|].
    destruct b.
    + assert (G1 := modifyAsSubordinate_good h context v k W Hv Ek Eb Hk).
      assert (G2 := modifyAsEqual_good h context v k W Hv Ek Eb Hk).
      splits.
      * split; [|done]. intros (n & msg & h' & E).
        destruct G1 as (? & ? & E' & _). congruence.
      * split; [|done]. intros (n & msg & h' & E).
        destruct G2 as (? & ? & E' & _). congruence.
      * intros _. eauto using good_safe.
    + destruct (modifyAs_throw h context v k Hv Ek Eb) as [T1 T2].
      splits; [by split|by split|done].
  - intros parent name o child Hp Hs. split.
    + intros I. destruct (wf_lookup h parent o W Hp) as (c & b & Hc & Ht & _).
      assert (K := isImmutable_inv h parent o c true h Hp Hc I).
      rewrite Ht in K. injection K as ->.
      eexists _, h.
      by apply modifyProperty_immutable with o c.
    + intros I. eapply good_safe. by apply modifyProperty_good with o child.
  - eapply good_safe. by apply mutable_good.
  - by apply R with Frozen.
  - intros pctx V. eapply good_safe. by apply selectContext_good.
  - intros k Hk. destruct (isMutableContext_total h k W Hk) as [b Eb].
    destruct Hk as [c Hc]. splits.
    + by apply R with b.
    + apply R with (negb b). unfold isImmutableContext.
      by rewrite (bind_Ok _ _ _ _ _ Eb).
    + apply R with (0 <=? scope c). by apply isPrimaryContext_run.
    + apply R with (scope c =? -1). by apply isSubordinateContext_run.
    + eapply good_safe. apply asSubordinateContext_good; [done|by exists c].
    + eapply good_safe. apply commitContext_good; [done|by exists c].
  - intros k1 k2 [c1 H1] [c2 H2]. eapply R. by apply isRelatedContext_run.
  - intros v Hv. destruct (getMutationContext_total h v W Hv) as (k & Ek & Hk).
    destruct (isMutable_total h v W Hv) as [b Eb]. splits.
    + by apply R with k.
    + eapply good_safe. by apply getSubordinateContext_good.
    + by apply R with b.
    + apply R with (negb b). unfold isImmutable.
      by rewrite (bind_Ok _ _ _ _ _ Eb).
    + eapply good_safe. by apply begin_good.
    + eapply good_safe. by apply commit_good.
  - intros v w Hv Hw. destruct (tokenOf_total h v W Hv) as [tv Ev].
    destruct (tokenOf_total h w W Hw) as [tw Ew].
    apply R with (bool_decide (tv = tw)). unfold areContextsRelated.
    rewrite (bind_Ok _ _ _ _ _ Ev). by rewrite (bind_Ok _ _ _ _ _ Ew).
  - intros k v [c Hc] Hv. destruct (tokenOf_total h v W Hv) as [tv Ev]. split.
    + apply R with (bool_decide (token c = tv)). unfold hasRelatedContext.
      unfold readContext, bind at 1. rewrite Hc.
      by rewrite (bind_Ok _ _ _ _ _ Ev).
    + eapply good_safe. apply ensureContext_good; [done|by exists c|done].
  - intros pctx v V Hv. split; eapply good_safe.
    + by apply clone_good.
    + by apply withMutability_good.
  - intros mutate v Hv P. eapply good_safe. by apply update_good.
Qed.

End ProtocolFacts.

(** ** The module's initial heap *)

Lemma Frozen_init {Data} :
  bind (newToken false) (λ t, newMutationContext t (-1)) (mkHeap ∅ ∅ ∅)
  = Ok Frozen (@initial Data).
Proof. vm_compute. reflexivity. Qed.

Lemma wf_initial {Data} : wf (@initial Data).
Proof.
  unfold wf, initial. proj. splits.
  - apply lookup_singleton_eq.
  - apply lookup_singleton_eq.
  - intros k x E. apply lookup_singleton_Some in E as [_ <-]. proj.
    split; [|lia]. rewrite lookup_singleton_eq. eauto.
  - intros k x E. by rewrite lookup_empty in E.
Qed.

(** ** The sample heaps *)

Lemma wf_heapFrozen : wf heapFrozen.
Proof. apply (bool_decide_unpack _). vm_compute. exact I. Defined.

Lemma wf_heapBatch : wf heapBatch.
Proof. apply (bool_decide_unpack _). vm_compute. exact I. Defined.

Lemma commit_spec_witness :
  wf heapBatch
  ∧ ∃ h', commit 1%positive heapBatch = Ok 1%positive h'
      ∧ values h' = values heapBatch
      ∧ isImmutable 2%positive h' = Ok true h'
      ∧ isImmutable 3%positive h' = Ok true h'.
Proof.
  split; [exact wf_heapBatch|].
  destruct (commit_spec heapBatch 1%positive
              (mkPersistent 2%positive 10 {[ "left" := 4%positive ]})
              (mkMutationContext 2%positive 0) wf_heapBatch eq_refl eq_refl)
    as (h' & E & V & Z & _).
  exists h'. split; [exact E|]. split; [exact V|].
  destruct (Z eq_refl) as [_ K].
  split.
  - exact (K 2%positive (mkPersistent 3%positive 20 ∅)
             (mkMutationContext 2%positive (-1)) eq_refl eq_refl eq_refl).
  - exact (K 3%positive (mkPersistent 3%positive 30 ∅)
             (mkMutationContext 2%positive (-1)) eq_refl eq_refl eq_refl).
Defined.

Lemma begin_spec_witness :
  wf heapFrozen
  ∧ ∃ v' k t' : ref,
      values heapFrozen !! v' = Datatypes.None
      ∧ contexts heapFrozen !! k = Datatypes.None
      ∧ tokens heapFrozen !! t' = Datatypes.None
      ∧ begin 1%positive heapFrozen =
          Ok v' (mkHeap (<[t' := true]> (tokens heapFrozen))
                        (<[k := mkMutationContext t' 0]> (contexts heapFrozen))
                        (<[v' := mkPersistent k 7 ∅]> (values heapFrozen))).
Proof.
  split; [exact wf_heapFrozen|].
  exact (proj2 (proj2 (begin_spec heapFrozen 1%positive
                         (mkPersistent 1%positive 7 ∅)
                         (mkMutationContext 1%positive (-1)) false
                         wf_heapFrozen eq_refl eq_refl eq_refl)) eq_refl).
Defined.

Lemma begin_idempotent_witness :
  wf heapFrozen
  ∧ ∃ v1 h1 h2 o1,
      begin 1%positive heapFrozen = Ok v1 h1
      ∧ values h1 !! v1 = Some o1 ∧ content o1 = 7
      ∧ begin v1 h1 = Ok v1 h2.
Proof.
  split; [exact wf_heapFrozen|].
  destruct (begin_idempotent heapFrozen 1%positive (mkPersistent 1%positive 7 ∅)
              wf_heapFrozen eq_refl)
    as (v1 & h1 & h2 & o1 & c1 & E1 & V1 & D1 & _ & _ & _ & E2 & _).
  exists v1, h1, h2, o1.
  split; [exact E1|]. split; [exact V1|]. split; [exact D1|exact E2].
Defined.

(** The described [modifyAsEqual] fails where owner and child share one
    subordinate context: the child comes back as it is although its
    context is not primary. *)
Lemma modifyAsEqual_counterexample :
  ¬ modifyAsEqual_described heapBatch (OValue 2%positive) 3%positive.
Proof.
  intros D.
  destruct (D (mkPersistent 3%positive 30 ∅) (mkMutationContext 2%positive (-1))
              3%positive (mkMutationContext 2%positive (-1))
              eq_refl eq_refl eq_refl eq_refl eq_refl) as [_ D2].
  destruct D2 as (v' & h' & E & F).
  - intros [_ S]. revert S. cbn [scope]. lia.
  - assert (E' : modifyAsEqual (OValue 2%positive) 3%positive heapBatch
                 = Ok 3%positive heapBatch) by (vm_compute; reflexivity).
    rewrite E' in E. injection E as <- <-. revert F. vm_compute. discriminate.
Qed.

Lemma modifyAsEqual_spec_witness :
  ∃ v' h', modifyAsEqual (OValue 2%positive) 3%positive heapBatch = Ok v' h'
    ∧ v' = 3%positive ∧ h' = heapBatch.
Proof.
  destruct (modifyAsEqual_spec heapBatch (OValue 2%positive) 3%positive
              (mkPersistent 3%positive 30 ∅) (mkMutationContext 2%positive (-1))
              3%positive (mkMutationContext 2%positive (-1))
              eq_refl eq_refl eq_refl eq_refl eq_refl) as (v' & h' & E & Y & _).
  exists v', h'. split; [exact E|]. apply Y. split; [reflexivity|].
  left. reflexivity.
Defined.

(** The described round trip fails on an immutable value: what comes back
    is mutable. *)
Lemma roundTrip_counterexample : ¬ roundTrip_described heapFrozen 1%positive.
Proof.
  intros D.
  destruct (D (mkPersistent 1%positive 7 ∅) eq_refl)
    as (v' & h' & o' & E & _ & _ & _ & I).
  revert E. vm_compute. intros E. injection E as <- <-.
  revert I. vm_compute. discriminate.
Qed.

Lemma roundTrip_spec_witness :
  wf heapFrozen
  ∧ ∃ v' h' o', roundTrip 1%positive heapFrozen = Ok v' h'
      ∧ values h' !! v' = Some o' ∧ content o' = 7
      ∧ isMutable v' h' = Ok true h'.
Proof.
  split; [exact wf_heapFrozen|].
  destruct (roundTrip_spec heapFrozen 1%positive (mkPersistent 1%positive 7 ∅)
              wf_heapFrozen eq_refl) as [(v' & h' & o' & E & V & C & _ & I) _].
  exists v', h', o'. split; [exact E|]. split; [exact V|]. split; [exact C|exact I].
Defined.

Lemma update_spec_witness :
  wf heapFrozen ∧ MutationProcedure (@setContent Z 9)
  ∧ ∃ v' h', update (setContent 9) 1%positive heapFrozen = Ok v' h'
      ∧ isImmutable v' h' = Ok true h'
      ∧ v' ≠ 1%positive
      ∧ values h' !! 1%positive = Some (mkPersistent 1%positive 7 ∅).
Proof.
  split; [exact wf_heapFrozen|].
  split; [exact (setContent_MutationProcedure 9)|].
  exact (proj2 (update_spec heapFrozen (setContent 9) 1%positive
                  (mkPersistent 1%positive 7 ∅) wf_heapFrozen eq_refl
                  (setContent_MutationProcedure 9)) eq_refl).
Defined.

(** A procedure that enters a nested batch and does not leave it is not a
    mutation procedure, and the value [update] returns with it is still
    mutable. *)
Remark update_enterOnly :
  ∃ v' h', update enterOnly 1%positive heapFrozen = Ok v' h'
    ∧ isMutable v' h' = Ok true h'.
Proof. eexists _, _. split; vm_compute; reflexivity. Qed.

Lemma modifyProperty_spec_witness :
  wf heapBatch
  ∧ ∃ r h' ro rc,
      modifyProperty 1%positive "left" heapBatch = Ok r h'
      ∧ values h' !! r = Some ro ∧ contexts h' !! mctx ro = Some rc
      ∧ token rc = 2%positive.
Proof.
  split; [exact wf_heapBatch|].
  destruct (proj2 (modifyProperty_spec heapBatch 1%positive "left"
                     (mkPersistent 2%positive 10 {[ "left" := 4%positive ]})
                     (mkMutationContext 2%positive 0) true
                     wf_heapBatch eq_refl eq_refl eq_refl)
              eq_refl 4%positive (mkPersistent 1%positive 40 ∅)
              (mkMutationContext 1%positive (-1)) eq_refl eq_refl eq_refl)
    as (r & h' & ro & rc & E & V & C & T & _).
  exists r, h', ro, rc. split; [exact E|]. split; [exact V|].
  split; [exact C|exact T].
Defined.

Lemma modifyAsSubordinate_spec_witness :
  wf heapBatch
  ∧ ∃ v' h', modifyAsSubordinate (OValue 1%positive) 4%positive heapBatch = Ok v' h'
      ∧ v' ≠ 4%positive.
Proof.
  split; [exact wf_heapBatch|].
  destruct (modifyAsSubordinate_spec heapBatch (OValue 1%positive) 4%positive
              (mkPersistent 1%positive 40 ∅) (mkMutationContext 1%positive (-1))
              2%positive (mkMutationContext 2%positive 0)
              wf_heapBatch eq_refl eq_refl eq_refl eq_refl eq_refl)
    as (v' & h' & E & I & _).
  exists v', h'. split; [exact E|].
  intros N. apply I in N. destruct N as [_ N]. discriminate N.
Defined.

Lemma failure_conditions_witness :
  wf heapBatch
  ∧ safe (begin 4%positive) heapBatch
  ∧ safe (commit 1%positive) heapBatch
  ∧ raisesArgumentError (modifyAsSubordinate (OValue 4%positive) 1%positive)
      heapBatch.
Proof.
  split; [exact wf_heapBatch|].
  destruct (failure_conditions heapBatch wf_heapBatch)
    as (A & _ & _ & _ & _ & _ & _ & V & _).
  destruct (V 4%positive (ex_intro _ (mkPersistent 1%positive 40 ∅) eq_refl))
    as (_ & _ & _ & _ & B & _).
  destruct (V 1%positive
              (ex_intro _ (mkPersistent 2%positive 10 {[ "left" := 4%positive ]})
                 eq_refl))
    as (_ & _ & _ & _ & _ & C).
  split; [exact B|]. split; [exact C|].
  destruct (A (OValue 4%positive) 1%positive
              (ex_intro _ (mkPersistent 1%positive 40 ∅) eq_refl)
              (ex_intro _ (mkPersistent 2%positive 10 {[ "left" := 4%positive ]})
                 eq_refl))
    as (b & E & I & _).
  apply I. revert E. vm_compute. intros E. injection E as <-. reflexivity.
Defined.

(** ** The red-black tree sentinel *)

Section TreeFacts.
Context {K V : Type}.

Lemma moduleInit_None :
  @RedBlackTree.moduleInit K V = (RedBlackTree.None, RedBlackTree.initial).
Proof. vm_compute. reflexivity. Qed.


End TreeFacts.

(** * Further facts *)

Section Evolution.
Context {Data : Type}.
Implicit Types (h : Heap Data) (o : Persistent Data) (c : MutationContext).

Lemma evolves_refl h : evolves h h.
Proof.
  split; [done|]. split.
  - intros k c Hc. exists c. by splits.
  - intros v o Hv. exists o. by splits.
Qed.

Lemma evolves_trans h1 h2 h3 : evolves h1 h2 → evolves h2 h3 → evolves h1 h3.
Proof.
  intros (T1 & C1 & V1) (T2 & C2 & V2). split; [|split].
  - intros t Ht. by apply T2, T1.
  - intros k c Hc. destruct (C1 k c Hc) as (c' & Hc' & ? & ? & ?).
    destruct (C2 k c' Hc') as (c'' & Hc'' & ? & ? & ?).
    exists c''. splits; [done|congruence|tauto|tauto].
  - intros v o Hv. destruct (V1 v o Hv) as (o' & Hv' & M1 & D1 & I1).
    destruct (V2 v o' Hv') as (o'' & Hv'' & M2 & D2 & I2).
    exists o''. splits; [done|congruence|congruence|].
    intros c Hc Ht. specialize (I1 c Hc Ht). subst o'.
    destruct (C1 _ c Hc) as (c' & Hc' & Tk & _).
    apply (I2 c' Hc'). rewrite Tk. by apply T1.
Qed.

Lemma heapOf_bind {A B} (m : M Data A) (f : A → M Data B) h :
  heapOf (bind m f h) =
    match m h with
    | Ok a h1 => heapOf (f a h1)
    | Throw _ h1 => h1
    end.
Proof. unfold bind. by destruct (m h). Qed.

Lemma readonly_preserves {A} (m : M Data A) : readonly m → preserves m.
Proof. intros R h. rewrite R. apply evolves_refl. Qed.

Lemma readonly_cases {A} (m : M Data A) h :
  readonly m → (∃ a, m h = Ok a h) ∨ (∃ e, m h = Throw e h).
Proof.
  intros R. specialize (R h). destruct (m h) as [a h'|e h']; simpl in R; subst; eauto.
Qed.

Lemma readonly_bind {A B} (m : M Data A) (f : A → M Data B) :
  readonly m → (∀ a, readonly (f a)) → readonly (bind m f).
Proof.
  intros Rm Rf h. rewrite heapOf_bind.
  destruct (readonly_cases m h Rm) as [[a E]|[e E]]; rewrite E; [apply Rf|done].
Qed.

Lemma preserves_bind {A B} (m : M Data A) (f : A → M Data B) :
  preserves m → (∀ a, preserves (f a)) → preserves (bind m f).
Proof.
  intros Pm Pf h. rewrite heapOf_bind. specialize (Pm h).
  destruct (m h) as [a h1|e h1]; simpl in Pm; [|done].
  eapply evolves_trans; [done|apply Pf].
Qed.

(** After a reading step the rest runs in the same heap, and what the
    step returned is known. *)
Lemma evolves_after_read {A B} (m : M Data A) (f : A → M Data B) h :
  readonly m →
  (∀ a, m h = Ok a h → evolves h (heapOf (f a h))) →
  evolves h (heapOf (bind m f h)).
Proof.
  intros Rm K. rewrite heapOf_bind.
  destruct (readonly_cases m h Rm) as [[a E]|[e E]]; rewrite E;
    [by apply K|apply evolves_refl].
Qed.

Lemma readonly_ret {A} (a : A) : readonly (Data := Data) (ret a).
Proof. done. Qed.

Lemma readonly_throw {A} e : readonly (Data := Data) (A := A) (throw e).
Proof. done. Qed.

Lemma readonly_readContext k : readonly (Data := Data) (readContext k).
Proof. intros h. unfold readContext. by destruct (contexts h !! k). Qed.

Lemma readonly_readToken t : readonly (Data := Data) (readToken t).
Proof. intros h. unfold readToken. by destruct (tokens h !! t). Qed.

Lemma readonly_getMutationContext v :
  readonly (Data := Data) (getMutationContext v).
Proof. intros h. unfold getMutationContext. by destruct (values h !! v). Qed.

Lemma readonly_getProperty v name : readonly (Data := Data) (getProperty v name).
Proof.
  intros h. unfold getProperty. destruct (values h !! v) as [o|]; [|done].
  by destruct (slots o !! name).
Qed.

Lemma readonly_isMutableContext k : readonly (Data := Data) (isMutableContext k).
Proof.
  apply readonly_bind; [apply readonly_readContext|intros; apply readonly_readToken].
Qed.

Lemma readonly_isPrimaryContext k : readonly (Data := Data) (isPrimaryContext k).
Proof.
  apply readonly_bind; [apply readonly_readContext|intros; apply readonly_ret].
Qed.

Lemma readonly_isSubordinateContext k :
  readonly (Data := Data) (isSubordinateContext k).
Proof.
  apply readonly_bind; [apply readonly_readContext|intros; apply readonly_ret].
Qed.

Lemma readonly_isRelatedContext a b : readonly (Data := Data) (isRelatedContext a b).
Proof.
  apply readonly_bind; [apply readonly_readContext|intros].
  apply readonly_bind; [apply readonly_readContext|intros; apply readonly_ret].
Qed.

Lemma readonly_isMutable v : readonly (Data := Data) (isMutable v).
Proof.
  apply readonly_bind; [apply readonly_getMutationContext|intros].
  apply readonly_isMutableContext.
Qed.

Lemma readonly_isImmutable v : readonly (Data := Data) (isImmutable v).
Proof.
  apply readonly_bind; [apply readonly_isMutable|intros; apply readonly_ret].
Qed.

Lemma readonly_tokenOf v : readonly (Data := Data) (tokenOf v).
Proof.
  apply readonly_bind; [apply readonly_getMutationContext|intros].
  apply readonly_bind; [apply readonly_readContext|intros; apply readonly_ret].
Qed.

Lemma readonly_areContextsRelated a b :
  readonly (Data := Data) (areContextsRelated a b).
Proof.
  apply readonly_bind; [apply readonly_tokenOf|intros].
  apply readonly_bind; [apply readonly_tokenOf|intros; apply readonly_ret].
Qed.

Lemma readonly_contextOf context : readonly (Data := Data) (contextOf context).
Proof.
  destruct context; [apply readonly_ret|apply readonly_getMutationContext].
Qed.

(** *** What a reading step tells *)

Lemma readContext_inv k h c h' :
  readContext k h = Ok c h' → contexts h !! k = Some c.
Proof. unfold readContext. destruct (contexts h !! k); intros; by simplify_eq. Qed.

Lemma getMutationContext_inv v h mc h' :
  getMutationContext v h = Ok mc h' → ∃ o, values h !! v = Some o ∧ mc = mctx o.
Proof.
  unfold getMutationContext. destruct (values h !! v) as [o|]; intros; simplify_eq.
  eauto.
Qed.

Lemma isMutableContext_inv k h b h' :
  isMutableContext k h = Ok b h' →
  ∃ c, contexts h !! k = Some c ∧ tokens h !! token c = Some b.
Proof.
  unfold isMutableContext, bind, readContext, readToken.
  destruct (contexts h !! k) as [c|]; [|done].
  destruct (tokens h !! token c) eqn:E; intros; simplify_eq. eauto.
Qed.

Lemma isSubordinateContext_inv k h s h' :
  isSubordinateContext k h = Ok s h' →
  ∃ c, contexts h !! k = Some c ∧ s = (scope c =? -1).
Proof.
  unfold isSubordinateContext, bind, readContext, ret.
  destruct (contexts h !! k) as [c|]; intros; simplify_eq. eauto.
Qed.

Lemma isPrimaryContext_inv k h p h' :
  isPrimaryContext k h = Ok p h' →
  ∃ c, contexts h !! k = Some c ∧ p = (0 <=? scope c).
Proof.
  unfold isPrimaryContext, bind, readContext, ret.
  destruct (contexts h !! k) as [c|]; intros; simplify_eq. eauto.
Qed.

Lemma isImmutable_lookup v h b h' :
  isImmutable v h = Ok b h' →
  ∃ o c, values h !! v = Some o ∧ contexts h !! mctx o = Some c
         ∧ tokens h !! token c = Some (negb b).
Proof.
  unfold isImmutable, isMutable. unfold bind at 1 2.
  destruct (getMutationContext v h) as [mc h1|] eqn:E1; [|done].
  destruct (getMutationContext_inv _ _ _ _ E1) as (o & Hv & ->).
  assert (h1 = h) as -> by (pose proof (readonly_getMutationContext v h) as R;
                            by rewrite E1 in R).
  destruct (isMutableContext (mctx o) h) as [m h2|] eqn:E2; [|done].
  destruct (isMutableContext_inv _ _ _ _ E2) as (c & Hc & Ht).
  unfold ret. intros ?. simplify_eq. exists o, c. by rewrite negb_involutive.
Qed.

(** *** Single writes *)

Lemma evolves_new_token h t b : tokens h !! t = Datatypes.None →
  evolves h (mkHeap (<[t := b]> (tokens h)) (contexts h) (values h)).
Proof.
  intros F. split; [|split]; proj.
  - intros t' Ht. rewrite lookup_insert_ne; [done|congruence].
  - intros k c Hc. exists c. by splits.
  - intros v o Hv. exists o. by splits.
Qed.

Lemma evolves_close h t :
  evolves h (mkHeap (<[t := false]> (tokens h)) (contexts h) (values h)).
Proof.
  split; [|split]; proj.
  - intros t' Ht. destruct (decide (t = t')) as [->|N].
    + apply lookup_insert_eq.
    + by rewrite lookup_insert_ne.
  - intros k c Hc. exists c. by splits.
  - intros v o Hv. exists o. by splits.
Qed.

Lemma evolves_new_context h k x : contexts h !! k = Datatypes.None →
  evolves h (mkHeap (tokens h) (<[k := x]> (contexts h)) (values h)).
Proof.
  intros F. split; [done|split]; proj.
  - intros k' c Hc. exists c. rewrite lookup_insert_ne by congruence. by splits.
  - intros v o Hv. exists o. by splits.
Qed.

Lemma evolves_set_scope h k c s : contexts h !! k = Some c →
  (scope c = -1 → s = -1) → (0 <= scope c → 0 <= s) →
  evolves h (mkHeap (tokens h) (<[k := mkMutationContext (token c) s]> (contexts h))
                    (values h)).
Proof.
  intros Hk S1 S2. split; [done|split]; proj.
  - intros k' c' Hc'. destruct (decide (k = k')) as [->|N].
    + simplify_eq. eexists. rewrite lookup_insert_eq. by splits.
    + exists c'. rewrite lookup_insert_ne by done. by splits.
  - intros v o Hv. exists o. by splits.
Qed.

Lemma evolves_new_value h v x : values h !! v = Datatypes.None →
  evolves h (mkHeap (tokens h) (contexts h) (<[v := x]> (values h))).
Proof.
  intros F. split; [done|split]; proj.
  - intros k c Hc. exists c. by splits.
  - intros v' o Hv. exists o. rewrite lookup_insert_ne by congruence. by splits.
Qed.

(** Writing the slots of a value that is mutable. *)
Lemma evolves_set_slots h v o c sl :
  values h !! v = Some o → contexts h !! mctx o = Some c →
  tokens h !! token c = Some true →
  evolves h (mkHeap (tokens h) (contexts h)
                    (<[v := mkPersistent (mctx o) (content o) sl]> (values h))).
Proof.
  intros Hv Hc Ht. split; [done|split]; proj.
  - intros k c' Hc'. exists c'. by splits.
  - intros v' o' Hv'. destruct (decide (v = v')) as [->|N].
    + simplify_eq. eexists. rewrite lookup_insert_eq. splits; try done.
      intros c' Hc' Ht'. simplify_eq.
    + exists o'. rewrite lookup_insert_ne by done. by splits.
Qed.

(** *** The operations *)

Lemma preserves_newToken b : preserves (Data := Data) (newToken b).
Proof. intros h. apply evolves_new_token, fresh_lookup. Qed.

Lemma preserves_newMutationContext t s :
  preserves (Data := Data) (newMutationContext t s).
Proof. intros h. apply evolves_new_context, fresh_lookup. Qed.

Lemma preserves_cloneHook v k : preserves (Data := Data) (cloneHook v k).
Proof.
  intros h. unfold cloneHook. destruct (values h !! v); [|apply evolves_refl].
  apply evolves_new_value, fresh_lookup.
Qed.

Lemma preserves_close k : preserves (Data := Data) (close k).
Proof.
  apply preserves_bind; [apply readonly_preserves, readonly_readContext|].
  intros c h. apply evolves_close.
Qed.

Lemma preserves_mutable : preserves (Data := Data) mutable.
Proof.
  apply preserves_bind; [apply preserves_newToken|].
  intros t. apply preserves_newMutationContext.
Qed.

Lemma preserves_asSubordinateContext k :
  preserves (Data := Data) (asSubordinateContext k).
Proof.
  apply preserves_bind; [apply readonly_preserves, readonly_readContext|].
  intros c. destruct (0 <=? scope c).
  - apply preserves_newMutationContext.
  - apply readonly_preserves, readonly_ret.
Qed.

Lemma preserves_getSubordinateContext v :
  preserves (Data := Data) (getSubordinateContext v).
Proof.
  apply preserves_bind; [apply readonly_preserves, readonly_getMutationContext|].
  intros k. apply preserves_asSubordinateContext.
Qed.

Lemma preserves_selectContext pctx : preserves (Data := Data) (selectContext pctx).
Proof.
  destruct pctx as [|[]|k|v]; unfold selectContext.
  - apply readonly_preserves, readonly_ret.
  - apply preserves_mutable.
  - apply readonly_preserves, readonly_ret.
  - apply readonly_preserves, readonly_bind;
      [apply readonly_isMutableContext|intros; apply readonly_ret].
  - apply preserves_getSubordinateContext.
Qed.

Lemma preserves_clone v pctx : preserves (Data := Data) (clone v pctx).
Proof.
  apply preserves_bind; [apply preserves_selectContext|].
  intros k. apply preserves_cloneHook.
Qed.

Lemma preserves_commitContext k : preserves (Data := Data) (commitContext k).
Proof.
  apply preserves_bind; [apply readonly_preserves, readonly_isPrimaryContext|].
  intros []; [apply preserves_close|apply readonly_preserves, readonly_ret].
Qed.

Lemma preserves_ensureContext k v : preserves (Data := Data) (ensureContext k v).
Proof.
  apply preserves_bind; [apply readonly_preserves, readonly_getMutationContext|].
  intros vc. case_bool_decide;
    [apply readonly_preserves, readonly_ret|apply preserves_cloneHook].
Qed.

Lemma preserves_withMutability pctx v :
  preserves (Data := Data) (withMutability pctx v).
Proof.
  destruct pctx as [|b|k|p]; unfold withMutability.
  - apply preserves_cloneHook.
  - apply preserves_bind; [apply readonly_preserves, readonly_isMutable|].
    intros m. case_bool_decide; [apply readonly_preserves, readonly_ret|].
    apply preserves_bind.
    + destruct b; [apply preserves_mutable|apply readonly_preserves, readonly_ret].
    + intros k. apply preserves_cloneHook.
  - apply preserves_bind; [apply readonly_preserves, readonly_getMutationContext|].
    intros vc.
    apply preserves_bind; [apply readonly_preserves, readonly_isRelatedContext|].
    intros []; [apply readonly_preserves, readonly_ret|apply preserves_cloneHook].
  - apply preserves_bind; [apply readonly_preserves, readonly_areContextsRelated|].
    intros []; [apply readonly_preserves, readonly_ret|].
    apply preserves_bind; [apply preserves_getSubordinateContext|].
    intros k. apply preserves_cloneHook.
Qed.

Lemma preserves_modifyAsSubordinate context v :
  preserves (Data := Data) (modifyAsSubordinate context v).
Proof.
  apply preserves_bind; [apply readonly_preserves, readonly_getMutationContext|].
  intros vc.
  apply preserves_bind; [apply readonly_preserves, readonly_contextOf|].
  intros k.
  apply preserves_bind; [apply readonly_preserves, readonly_isMutableContext|].
  intros []; [|apply readonly_preserves, readonly_throw].
  apply preserves_bind; [apply readonly_preserves, readonly_isRelatedContext|].
  intros r. apply preserves_bind.
  - destruct r; apply readonly_preserves;
      [apply readonly_isSubordinateContext|apply readonly_ret].
  - intros []; [apply readonly_preserves, readonly_ret|].
    apply preserves_bind; [apply preserves_asSubordinateContext|].
    intros k'. apply preserves_clone.
Qed.

Lemma preserves_modifyAsEqual context v :
  preserves (Data := Data) (modifyAsEqual context v).
Proof.
  apply preserves_bind; [apply readonly_preserves, readonly_getMutationContext|].
  intros vc.
  apply preserves_bind; [apply readonly_preserves, readonly_contextOf|].
  intros k.
  apply preserves_bind; [apply readonly_preserves, readonly_isMutableContext|].
  intros []; [|apply readonly_preserves, readonly_throw].
  apply preserves_bind; [apply readonly_preserves, readonly_isRelatedContext|].
  intros r. apply preserves_bind.
  - destruct r; apply readonly_preserves; [|apply readonly_ret].
    apply readonly_bind; [apply readonly_isSubordinateContext|].
    intros []; [apply readonly_ret|apply readonly_isPrimaryContext].
  - intros []; [apply readonly_preserves, readonly_ret|apply preserves_clone].
Qed.

(** [begin] raises a scope only on a context that is not subordinate. *)
Lemma preserves_begin v : preserves (Data := Data) (begin v).
Proof.
  intros h. unfold begin.
  apply evolves_after_read; [apply readonly_getMutationContext|].
  intros mc Emc.
  apply evolves_after_read; [apply readonly_isMutableContext|].
  intros [] Em.
  - apply evolves_after_read; [apply readonly_isSubordinateContext|].
    intros [] Es; [apply evolves_refl|].
    destruct (isSubordinateContext_inv _ _ _ _ Es) as (c & Hc & Hs).
    rewrite heapOf_bind. unfold incScope, bind, readContext, writeScope.
    rewrite Hc. case_bool_decide; [apply evolves_refl|]. rewrite Hc.
    cbn [heapOf ret]. symmetry in Hs. apply Z.eqb_neq in Hs.
    apply evolves_set_scope; [done|done|lia].
  - apply (preserves_bind mutable (λ k : ref, clone v (PContext k))).
    + apply preserves_mutable.
    + intros k. apply preserves_clone.
Qed.

(** [commit] lowers a scope only on a primary context of scope other
    than 0. *)
Lemma preserves_commit v : preserves (Data := Data) (commit v).
Proof.
  intros h. unfold commit.
  apply evolves_after_read; [apply readonly_getMutationContext|].
  intros mc Emc.
  apply evolves_after_read; [apply readonly_isPrimaryContext|].
  intros p Ep. destruct (isPrimaryContext_inv _ _ _ _ Ep) as (c & Hc & ->).
  rewrite heapOf_bind.
  destruct (0 <=? scope c) eqn:Hp; [|apply evolves_refl].
  apply Z.leb_le in Hp. unfold bind at 1. unfold readContext at 1. rewrite Hc.
  destruct (scope c =? 0) eqn:Hz.
  - assert (K := preserves_close mc h). destruct (close mc h); exact K.
  - apply Z.eqb_neq in Hz. unfold decScope, bind, readContext, writeScope.
    rewrite Hc. case_bool_decide; [apply evolves_refl|]. rewrite Hc.
    cbn [heapOf ret]. apply evolves_set_scope; [done|lia|lia].
Qed.

(** [modifyProperty] writes to the parent only after finding it mutable. *)
Lemma preserves_modifyProperty parent name :
  preserves (Data := Data) (modifyProperty parent name).
Proof.
  intros h. unfold modifyProperty.
  apply evolves_after_read; [apply readonly_isImmutable|].
  intros [] Ei; [apply evolves_refl|].
  destruct (isImmutable_lookup _ _ _ _ Ei) as (po & pc & Hp & Hpc & Ht).
  cbn [negb] in Ht.
  apply evolves_after_read; [apply readonly_getProperty|]. intros child _.
  apply evolves_after_read; [apply readonly_getMutationContext|]. intros cc _.
  apply evolves_after_read; [apply readonly_getMutationContext|]. intros pk _.
  apply evolves_after_read; [apply readonly_isRelatedContext|].
  intros [] _; [apply evolves_refl|].
  rewrite heapOf_bind. assert (K := preserves_clone child (PValue parent) h).
  destruct (clone child (PValue parent) h) as [r h1|e h1]; [|exact K].
  cbn [heapOf] in K. rewrite heapOf_bind. unfold setProperty.
  destruct K as (T1 & C1 & V1).
  destruct (V1 parent po Hp) as (po1 & Hp1 & M1 & D1 & _). rewrite Hp1.
  cbn [heapOf ret]. split; [done|split]; proj.
  - done.
  - intros v o Hv. destruct (V1 v o Hv) as (o1 & Hv1 & ? & ? & I1).
    destruct (decide (parent = v)) as [->|N].
    + simplify_eq. eexists. rewrite lookup_insert_eq. splits; try done.
      intros c Hc Hf. simplify_eq.
    + exists o1. rewrite lookup_insert_ne by done. by splits.
Qed.

Lemma exec_evolves (call : Call) h : evolves h (exec call h).
Proof.
  destruct call; unfold exec.
  - apply preserves_mutable.
  - apply preserves_selectContext.
  - apply preserves_asSubordinateContext.
  - apply preserves_getSubordinateContext.
  - apply preserves_commitContext.
  - apply preserves_clone.
  - apply preserves_begin.
  - apply preserves_commit.
  - apply preserves_modifyAsSubordinate.
  - apply preserves_modifyAsEqual.
  - apply preserves_modifyProperty.
  - apply preserves_withMutability.
  - apply preserves_ensureContext.
Qed.

Lemma runCalls_evolves (calls : list Call) h : evolves h (runCalls calls h).
Proof.
  revert h. induction calls as [|call calls IH]; intros h.
  - apply evolves_refl.
  - cbn [runCalls fold_left]. eapply evolves_trans; [apply exec_evolves|apply IH].
Qed.

(** X10. Whatever calls a client makes, in whatever order and whether
    they return or throw, a value that is immutable stays immutable and
    stays exactly as it is: its context slot, its data and its children. *)
Theorem immutable_forever (calls : list Call) h v o c :
  values h !! v = Some o → contexts h !! mctx o = Some c →
  tokens h !! token c = Some false →
  values (runCalls calls h) !! v = Some o
  ∧ isImmutable v (runCalls calls h) = Ok true (runCalls calls h).
Proof.
  intros Hv Hc Ht. destruct (runCalls_evolves calls h) as (T & C & V).
  destruct (V v o Hv) as (o' & Hv' & _ & _ & I). rewrite (I c Hc Ht) in Hv'.
  destruct (C _ c Hc) as (c' & Hc' & Tk & _).
  split; [done|]. apply (isImmutable_run _ v o c' false); [done..|].
  rewrite Tk. by apply T.
Qed.

(** X11. Whatever calls a client makes, a context keeps its token and its
    role (an owner is never turned into a subordinate by commits, a
    subordinate never becomes an owner), and a value keeps its context
    slot and its data. *)
Theorem roles_forever (calls : list Call) h :
  (∀ k c, contexts h !! k = Some c →
     ∃ c', contexts (runCalls calls h) !! k = Some c'
       ∧ token c' = token c
       ∧ (scope c = -1 → scope c' = -1)
       ∧ (0 <= scope c → 0 <= scope c'))
  ∧ (∀ v o, values h !! v = Some o →
       ∃ o', values (runCalls calls h) !! v = Some o'
         ∧ mctx o' = mctx o ∧ content o' = content o).
Proof.
  destruct (runCalls_evolves calls h) as (T & C & V). split; [exact C|].
  intros v o Hv. destruct (V v o Hv) as (o' & ? & ? & ? & _). eauto.
Qed.

End Evolution.

Section Operations.
Context {Data : Type}.
Implicit Types (h : Heap Data) (o : Persistent Data) (c : MutationContext).

(** X1. Being related is an equivalence on the contexts of a heap:
    [isRelatedContext] is reflexive, symmetric and transitive, and
    [areContextsRelated] gives on two values the answer that
    [isRelatedContext] gives on their contexts. *)
Theorem isRelatedContext_equivalence h k1 k2 k3 c1 c2 c3 :
  contexts h !! k1 = Some c1 → contexts h !! k2 = Some c2 →
  contexts h !! k3 = Some c3 →
  isRelatedContext k1 k1 h = Ok true h
  ∧ isRelatedContext k2 k1 h = isRelatedContext k1 k2 h
  ∧ (isRelatedContext k1 k2 h = Ok true h → isRelatedContext k2 k3 h = Ok true h →
     isRelatedContext k1 k3 h = Ok true h)
  ∧ (∀ v w ov ow, values h !! v = Some ov → values h !! w = Some ow →
       mctx ov = k1 → mctx ow = k2 →
       areContextsRelated v w h = isRelatedContext k1 k2 h).
Proof.
  intros H1 H2 H3.
  rewrite (isRelatedContext_run h k1 k1 c1 c1), (isRelatedContext_run h k2 k1 c2 c1),
    (isRelatedContext_run h k1 k2 c1 c2), (isRelatedContext_run h k2 k3 c2 c3),
    (isRelatedContext_run h k1 k3 c1 c3) by done.
  splits.
  - by rewrite bool_decide_eq_true_2.
  - f_equal. apply bool_decide_ext. split; congruence.
  - intros E1 E2. injection E1 as E1. injection E2 as E2.
    apply bool_decide_eq_true_1 in E1, E2.
    rewrite bool_decide_eq_true_2; [done|congruence].
  - intros v w ov ow Hv Hw <- <-.
    unfold areContextsRelated, tokenOf, getMutationContext, bind, readContext, ret.
    by run.
Qed.

(** X2. [asSubordinateContext] returns a context on the token of the one
    it is given that is not primary: a newly allocated one of scope [-1]
    for a primary context, the context itself, with nothing allocated, for
    any other.  Applied to its own result it returns that result and
    allocates nothing. *)
Theorem asSubordinateContext_spec h k c :
  contexts h !! k = Some c →
  ∃ k' h' c', asSubordinateContext k h = Ok k' h'
    ∧ contexts h' !! k' = Some c'
    ∧ token c' = token c ∧ scope c' < 0
    ∧ (0 <= scope c →
         contexts h !! k' = Datatypes.None ∧ scope c' = -1
         ∧ contexts h' !! k = Some c)
    ∧ (scope c < 0 → k' = k ∧ h' = h)
    ∧ asSubordinateContext k' h' = Ok k' h'.
Proof.
  intros Hc. destruct (Z.le_gt_cases 0 (scope c)) as [Hs|Hs].
  - assert (Hf := fresh_ne _ _ _ Hc).
    eexists _, _, (mkMutationContext (token c) (-1)).
    split; [by apply asSubordinateContext_primary|]. proj.
    rewrite lookup_insert_eq. splits; try done.
    + intros _. rewrite lookup_insert_ne by done.
      split; [apply fresh_lookup|done].
    + lia.
    + apply asSubordinateContext_subordinate
        with (mkMutationContext (token c) (-1)); proj; [|done].
      apply lookup_insert_eq.
  - exists k, h, c. split; [by apply asSubordinateContext_subordinate with c|].
    splits; try done; try lia.
    by apply asSubordinateContext_subordinate with c.
Qed.

(** X7. [ensureContext(mctx, v)] returns a value whose context slot holds
    exactly [mctx]: [v] itself, with nothing written, exactly when the
    slot of [v] already holds that very context, and otherwise a newly
    allocated clone, also when the two contexts are related.  Applied to
    its own result it returns that result. *)
Theorem ensureContext_spec h mc v o :
  values h !! v = Some o →
  ∃ v' h' o', ensureContext mc v h = Ok v' h'
    ∧ values h' !! v' = Some o'
    ∧ mctx o' = mc ∧ content o' = content o ∧ slots o' = slots o
    ∧ (v' = v ↔ mctx o = mc)
    ∧ (v' = v → h' = h)
    ∧ values h' !! v = Some o
    ∧ ensureContext mc v' h' = Ok v' h'.
Proof.
  intros Hv. assert (Hf := fresh_ne _ _ _ Hv).
  destruct (decide (mctx o = mc)) as [E|N].
  - exists v, h, o.
    assert (R : ensureContext mc v h = Ok v h).
    { unfold ensureContext, getMutationContext, cloneHook, bind, ret. by run. }
    by splits.
  - exists (fresh (dom (values h))),
      (mkHeap (tokens h) (contexts h)
              (<[fresh (dom (values h)) := mkPersistent mc (content o) (slots o)]>
                 (values h))),
      (mkPersistent mc (content o) (slots o)).
    split.
    { unfold ensureContext, getMutationContext, cloneHook, bind, ret. by run. }
    proj. rewrite lookup_insert_eq, lookup_insert_ne by done. splits; try done.
    unfold ensureContext, getMutationContext, cloneHook, bind, ret. by run.
Qed.

(** X8. [commitContext] does not look at the nesting depth: on a primary
    context of any scope it writes [false] to the token, which makes every
    value on that token immutable at once, and leaves the scope as it is;
    on a context that is not primary it does nothing. *)
Theorem commitContext_spec h k c :
  contexts h !! k = Some c →
  (0 <= scope c →
     commitContext k h =
       Ok tt (mkHeap (<[token c := false]> (tokens h)) (contexts h) (values h))
     ∧ ∀ w ow cw, values h !! w = Some ow → contexts h !! mctx ow = Some cw →
         token cw = token c →
         isImmutable w (mkHeap (<[token c := false]> (tokens h)) (contexts h)
                               (values h))
         = Ok true (mkHeap (<[token c := false]> (tokens h)) (contexts h)
                           (values h)))
  ∧ (scope c < 0 → commitContext k h = Ok tt h).
Proof.
  intros Hc. split; intros Hs.
  - split.
    + unfold commitContext, isPrimaryContext, close, bind, readContext,
        writeToken, ret. by run.
    + intros w ow cw Hw Hcw Htok.
      apply (isImmutable_run (mkHeap _ _ _) w ow cw false); proj; try done.
      rewrite Htok. apply lookup_insert_eq.
  - unfold commitContext, isPrimaryContext, close, bind, readContext, ret. by run.
Qed.

Lemma insert_scope_back h k c s :
  contexts h !! k = Some c →
  <[k := mkMutationContext (token c) (scope c)]>
    (<[k := mkMutationContext (token c) s]> (contexts h)) = contexts h.
Proof.
  intros Hc. rewrite insert_insert_eq. apply insert_id. by destruct c.
Qed.

(** One [begin] and the [commit] that answers it, on a mutable value. *)
Lemma begin_commit_restores h v o c (m : ref → M Data ref) :
  wf h → values h !! v = Some o → contexts h !! mctx o = Some c →
  tokens h !! token c = Some true →
  (∀ h1, wf h1 → values h1 = values h → tokens h1 = tokens h →
         (∃ c1, contexts h1 !! mctx o = Some c1 ∧ token c1 = token c) →
         m v h1 = Ok v h1) →
  bind (begin v) (λ v1, bind (m v1) commit) h = Ok v h.
Proof.
  intros W Hv Hc Ht Hm. destruct (wf_context h _ c W Hc) as [_ Hge].
  destruct (decide (scope c = -1)) as [Hs|Hs].
  - rewrite (bind_Ok _ _ _ _ _ (begin_subordinate h v o c Hv Hc Ht Hs)).
    rewrite (bind_Ok _ _ _ _ _ (Hm h W eq_refl eq_refl (ex_intro _ c (conj Hc eq_refl)))).
    apply commit_subordinate with o c; [done..|lia].
  - assert (mctx o ≠ Frozen) by (eapply wf_mutable_not_Frozen; eauto).
    rewrite (bind_Ok _ _ _ _ _ (begin_primary h v o c W Hv Hc Ht Hs)).
    erewrite bind_Ok; cycle 1.
    { apply Hm; proj; [|done|done|].
      - apply wf_set_scope; try done. lia.
      - eexists. rewrite lookup_insert_eq. by split. }
    rewrite (commit_nested (mkHeap _ _ _) v o
               (mkMutationContext (token c) (scope c + 1))); proj.
    + replace (scope c + 1 - 1) with (scope c) by lia.
      rewrite insert_scope_back by done. by destruct h.
    + apply wf_set_scope; try done. lia.
    + done.
    + apply lookup_insert_eq.
    + lia.
Qed.

(** X9. Nested batches are balanced: on a mutable value, [n] calls of
    [begin] followed by [n] calls of [commit] return the value and put the
    heap back exactly as it was, whatever the depth it started at; the
    inner pairs never end the batch. *)
Theorem nested_restores (n : nat) h v o c :
  wf h → values h !! v = Some o → contexts h !! mctx o = Some c →
  tokens h !! token c = Some true →
  nested n v h = Ok v h.
Proof.
  revert h c. induction n as [|n IH]; intros h c W Hv Hc Ht; [done|].
  cbn [nested]. apply begin_commit_restores with o c; try done.
  intros h1 W1 V1 T1 (c1 & C1 & K1).
  apply IH with c1; [done|by rewrite V1|done|by rewrite K1, T1].
Qed.

(** What [selectContext] returns and leaves. *)
Lemma selectContext_result h pctx :
  wf h → validPreferred h pctx →
  ∃ (k : ref) h1 c1 (b : bool), selectContext pctx h = Ok k h1
    ∧ wf h1 ∧ values h1 = values h
    ∧ contexts h1 !! k = Some c1 ∧ tokens h1 !! token c1 = Some b
    ∧ preferredMutability h pctx b
    ∧ (∀ t x, tokens h !! t = Some x → tokens h1 !! t = Some x)
    ∧ (∀ k' c', contexts h !! k' = Some c' → contexts h1 !! k' = Some c').
Proof.
  intros W V.
  assert (F : ∃ (k : ref) h1 c1 (b : bool), ret Frozen h = Ok k h1
    ∧ wf h1 ∧ values h1 = values h
    ∧ contexts h1 !! k = Some c1 ∧ tokens h1 !! token c1 = Some b
    ∧ b = false
    ∧ (∀ t x, tokens h !! t = Some x → tokens h1 !! t = Some x)
    ∧ (∀ k' c', contexts h !! k' = Some c' → contexts h1 !! k' = Some c')).
  { exists Frozen, h, (mkMutationContext FrozenToken (-1)), false.
    splits; try done; [by apply wf_frozen_context|by apply wf_frozen_token]. }
  destruct pctx as [|[]|k|v]; cbn [selectContext preferredMutability]; try done.
  - eexists _, _, (mkMutationContext (fresh (dom (tokens h))) 0), true.
    split; [apply mutable_run|]. proj. rewrite !lookup_insert_eq.
    splits; try done; [by apply wf_mutable|..].
    + intros t x Ht. rewrite lookup_insert_ne; [done|].
      symmetry. by apply fresh_ne with x.
    + intros k' c' Hc'. rewrite lookup_insert_ne; [done|].
      symmetry. by apply fresh_ne with c'.
  - destruct V as [c Hc]. destruct (wf_context h k c W Hc) as [[b Hb] _].
    assert (E := isMutableContext_run h k c b Hc Hb).
    rewrite (bind_Ok _ _ _ _ _ E). destruct b.
    + exists k, h, c, true. by splits.
    + destruct F as (k0 & h1 & c1 & b & ? & ? & ? & ? & ? & -> & ? & ?).
      exists k0, h1, c1, false. by splits.
  - destruct V as [o Ho]. destruct (wf_lookup h v o W Ho) as (c & b & Hc & Ht & _).
    unfold getSubordinateContext.
    rewrite (bind_Ok _ _ _ _ _ (getMutationContext_run h v o Ho)).
    assert (I : isMutable v h = Ok b h) by by apply isMutable_run with o c.
    destruct (Z.le_gt_cases 0 (scope c)) as [Hs|Hs].
    + eexists _, _, (mkMutationContext (token c) (-1)), b.
      split; [by apply asSubordinateContext_primary|]. proj.
      rewrite lookup_insert_eq.
      splits; try done; [by apply wf_asSubordinate with (mctx o)|].
      intros k' c' Hc'. rewrite lookup_insert_ne; [done|].
      symmetry. by apply fresh_ne with c'.
    + exists (mctx o), h, c, b.
      split; [by apply asSubordinateContext_subordinate with c|]. by splits.
Qed.

(** X3. The context [selectContext] returns has the mutability the
    preference asks for: immutable for no preference and for [false],
    mutable for [true], that of the context for a context, that of the
    value for a value; and it writes to nothing that existed. *)
Theorem selectContext_mutability h pctx :
  wf h → validPreferred h pctx →
  ∃ (k : ref) h' (b : bool), selectContext pctx h = Ok k h'
    ∧ isMutableContext k h' = Ok b h'
    ∧ preferredMutability h pctx b
    ∧ values h' = values h
    ∧ (∀ t x, tokens h !! t = Some x → tokens h' !! t = Some x)
    ∧ (∀ k' c', contexts h !! k' = Some c' → contexts h' !! k' = Some c').
Proof.
  intros W V.
  destruct (selectContext_result h pctx W V)
    as (k & h1 & c1 & b & E & _ & Vs & Hc & Ht & P & FT & FC).
  exists k, h1, b. splits; try done. by apply isMutableContext_run with c1.
Qed.

(** X4. [clone] returns a newly allocated value with the content and the
    children of the original, whose mutability is the one the preference
    asks for; every value, context and token that existed is as before,
    the original included. *)
Theorem clone_spec h v o pctx :
  wf h → values h !! v = Some o → validPreferred h pctx →
  ∃ (v' : ref) h' o' (b : bool), clone v pctx h = Ok v' h'
    ∧ values h !! v' = Datatypes.None
    ∧ values h' !! v' = Some o'
    ∧ content o' = content o ∧ slots o' = slots o
    ∧ isMutable v' h' = Ok b h' ∧ preferredMutability h pctx b
    ∧ (∀ w ow, values h !! w = Some ow → values h' !! w = Some ow)
    ∧ (∀ t x, tokens h !! t = Some x → tokens h' !! t = Some x)
    ∧ (∀ k' c', contexts h !! k' = Some c' → contexts h' !! k' = Some c').
Proof.
  intros W Hv V.
  destruct (selectContext_result h pctx W V)
    as (k & h1 & c1 & b & E & _ & Vs & Hc & Ht & P & FT & FC).
  unfold clone. rewrite (bind_Ok _ _ _ _ _ E). unfold cloneHook.
  rewrite Vs, Hv.
  eexists _, _, (mkPersistent k (content o) (slots o)), b.
  split; [reflexivity|]. proj. rewrite lookup_insert_eq.
  splits; try done.
  - apply fresh_lookup.
  - apply (isMutable_run (mkHeap _ _ _) _ (mkPersistent k (content o) (slots o))
             c1 b); proj; [apply lookup_insert_eq|done|done].
  - intros w ow Hw. rewrite lookup_insert_ne; [done|].
    symmetry. by apply fresh_ne with ow.
Qed.

(** X5. [withMutability(b, v)] for a boolean [b] returns a value whose
    mutability is [b]: [v] itself, with the heap untouched, exactly when
    [v] already has that mutability; otherwise a newly allocated value
    with the content and the children of [v], [v] staying as it was.  With
    no preference it always returns such a clone, on [Frozen], also when
    [v] is already immutable. *)
Theorem withMutability_boolean h v o c (m b : bool) :
  wf h → values h !! v = Some o → contexts h !! mctx o = Some c →
  tokens h !! token c = Some m →
  (∃ v' h' o', withMutability (PBool b) v h = Ok v' h'
     ∧ values h' !! v' = Some o'
     ∧ content o' = content o ∧ slots o' = slots o
     ∧ isMutable v' h' = Ok b h'
     ∧ (v' = v ↔ b = m)
     ∧ (v' = v → h' = h)
     ∧ (v' ≠ v → values h !! v' = Datatypes.None)
     ∧ values h' !! v = Some o)
  ∧ (∃ v' h' o', withMutability PUndefined v h = Ok v' h'
       ∧ values h !! v' = Datatypes.None
       ∧ values h' !! v' = Some o'
       ∧ mctx o' = Frozen ∧ content o' = content o ∧ slots o' = slots o
       ∧ isImmutable v' h' = Ok true h'
       ∧ values h' !! v = Some o).
Proof.
  intros W Hv Hc Ht. assert (Hf := fresh_ne _ _ _ Hv).
  assert (I := isMutable_run h v o c m Hv Hc Ht).
  assert (HF := wf_frozen_context h W). assert (HT := wf_frozen_token h W).
  split.
  - unfold withMutability. rewrite (bind_Ok _ _ _ _ _ I).
    destruct (decide (b = m)) as [->|N].
    + rewrite bool_decide_eq_true_2 by done. exists v, h, o. by splits.
    + rewrite bool_decide_eq_false_2 by done. destruct b.
      * rewrite (bind_Ok _ _ _ _ _ (mutable_run h)). unfold cloneHook. proj.
        rewrite Hv.
        eexists _, _,
          (mkPersistent (fresh (dom (contexts h))) (content o) (slots o)).
        split; [reflexivity|]. proj.
        rewrite lookup_insert_eq, lookup_insert_ne by done.
        split; [done|]. split; [done|]. split; [done|]. split.
        { apply (isMutable_run (mkHeap _ _ _) _
                   (mkPersistent (fresh (dom (contexts h))) (content o) (slots o))
                   (mkMutationContext (fresh (dom (tokens h))) 0) true);
            proj; apply lookup_insert_eq. }
        split; [split; [intros E; by symmetry in E|done]|].
        split; [intros E; by symmetry in E|].
        split; [intros _; apply fresh_lookup|done].
      * unfold bind at 1. unfold ret at 1. unfold cloneHook. rewrite Hv.
        eexists _, _, (mkPersistent Frozen (content o) (slots o)).
        split; [reflexivity|]. proj.
        rewrite lookup_insert_eq, lookup_insert_ne by done.
        split; [done|]. split; [done|]. split; [done|]. split.
        { apply (isMutable_run (mkHeap _ _ _) _
                   (mkPersistent Frozen (content o) (slots o))
                   (mkMutationContext FrozenToken (-1)) false);
            proj; [apply lookup_insert_eq|done|done]. }
        split; [split; [intros E; by symmetry in E|done]|].
        split; [intros E; by symmetry in E|].
        split; [intros _; apply fresh_lookup|done].
  - unfold withMutability, cloneHook. rewrite Hv.
    eexists _, _, (mkPersistent Frozen (content o) (slots o)).
    split; [reflexivity|]. proj.
    rewrite lookup_insert_eq, lookup_insert_ne by done.
    split; [apply fresh_lookup|]. split; [done|]. split; [done|].
    split; [done|]. split; [done|]. split; [|done].
    apply (isImmutable_run (mkHeap _ _ _) _
             (mkPersistent Frozen (content o) (slots o))
             (mkMutationContext FrozenToken (-1)) false);
      proj; [apply lookup_insert_eq|done|done].
Qed.

(** X6. [withMutability] with a context or an owner returns a value
    related to it: [v] itself, with the heap untouched, exactly when [v]
    is already related; otherwise a newly allocated value with the content
    and the children of [v], [v] staying as it was, which for a context
    carries that very context, whether or not it is still mutable, and for
    an owner carries a subordinate context of the owner. *)
Theorem withMutability_related h v o c :
  wf h → values h !! v = Some o → contexts h !! mctx o = Some c →
  (∀ k ck, contexts h !! k = Some ck →
     ∃ v' h' o', withMutability (PContext k) v h = Ok v' h'
       ∧ values h' !! v' = Some o'
       ∧ content o' = content o ∧ slots o' = slots o
       ∧ isRelatedContext k (mctx o') h' = Ok true h'
       ∧ (v' = v ↔ token ck = token c)
       ∧ (v' = v → h' = h)
       ∧ (v' ≠ v → values h !! v' = Datatypes.None ∧ mctx o' = k)
       ∧ values h' !! v = Some o)
  ∧ (∀ p op cp, values h !! p = Some op → contexts h !! mctx op = Some cp →
       ∃ v' h' o' c', withMutability (PValue p) v h = Ok v' h'
         ∧ values h' !! v' = Some o'
         ∧ content o' = content o ∧ slots o' = slots o
         ∧ contexts h' !! mctx o' = Some c'
         ∧ token c' = token cp
         ∧ areContextsRelated p v' h' = Ok true h'
         ∧ (v' = v ↔ token cp = token c)
         ∧ (v' = v → h' = h)
         ∧ (v' ≠ v → values h !! v' = Datatypes.None ∧ scope c' < 0)
         ∧ values h' !! v = Some o
         ∧ values h' !! p = Some op).
Proof.
  intros W Hv Hc. assert (Hf := fresh_ne _ _ _ Hv). split.
  - intros k ck Hk. unfold withMutability.
    rewrite (bind_Ok _ _ _ _ _ (getMutationContext_run h v o Hv)).
    rewrite (bind_Ok _ _ _ _ _ (isRelatedContext_run h k (mctx o) ck c Hk Hc)).
    destruct (decide (token ck = token c)) as [E|N].
    + rewrite bool_decide_eq_true_2 by done. exists v, h, o.
      splits; try done.
      rewrite (isRelatedContext_run h k (mctx o) ck c) by done.
      by rewrite bool_decide_eq_true_2.
    + rewrite bool_decide_eq_false_2 by done. unfold cloneHook. rewrite Hv.
      eexists _, _, (mkPersistent k (content o) (slots o)).
      split; [reflexivity|]. proj.
      rewrite lookup_insert_eq, lookup_insert_ne by done.
      split; [done|]. split; [done|]. split; [done|]. split.
      { rewrite (isRelatedContext_run (mkHeap _ _ _) k k ck ck) by done.
        by rewrite bool_decide_eq_true_2. }
      split; [split; [intros E; by symmetry in E|done]|].
      split; [intros E; by symmetry in E|].
      split; [intros _; split; [apply fresh_lookup|done]|done].
  - intros p op cp Hp Hcp. assert (Hfp := fresh_ne _ _ _ Hp).
    assert (R : areContextsRelated p v h
                = Ok (bool_decide (token cp = token c)) h).
    { unfold areContextsRelated, tokenOf, getMutationContext, bind, readContext,
        ret. by run. }
    unfold withMutability. rewrite (bind_Ok _ _ _ _ _ R).
    destruct (decide (token cp = token c)) as [E|N].
    + rewrite bool_decide_eq_true_2 by done. exists v, h, o, c.
      splits; try done. rewrite R. by rewrite bool_decide_eq_true_2.
    + rewrite bool_decide_eq_false_2 by done.
      assert (G : getSubordinateContext p h = asSubordinateContext (mctx op) h).
      { unfold getSubordinateContext.
        by rewrite (bind_Ok _ _ _ _ _ (getMutationContext_run h p op Hp)). }
      destruct (Z.le_gt_cases 0 (scope cp)) as [Hs|Hs].
      * rewrite (asSubordinateContext_primary h _ cp Hcp Hs) in G.
        rewrite (bind_Ok _ _ _ _ _ G).
        assert (Hfc := fresh_ne _ _ _ Hcp).
        unfold cloneHook. proj. rewrite Hv.
        eexists _, _, (mkPersistent (fresh (dom (contexts h))) (content o) (slots o)),
          (mkMutationContext (token cp) (-1)).
        split; [reflexivity|]. proj.
        rewrite !lookup_insert_eq, !lookup_insert_ne by done.
        split; [done|]. split; [done|]. split; [done|]. split; [done|].
        split; [done|]. split.
        { unfold areContextsRelated, tokenOf, getMutationContext, bind,
            readContext, ret. by run. }
        split; [split; [intros E; by symmetry in E|done]|].
        split; [intros E; by symmetry in E|].
        split; [intros _; split; [apply fresh_lookup|proj; lia]|done].
      * rewrite (asSubordinateContext_subordinate h _ cp Hcp Hs) in G.
        rewrite (bind_Ok _ _ _ _ _ G).
        unfold cloneHook. rewrite Hv.
        eexists _, _, (mkPersistent (mctx op) (content o) (slots o)), cp.
        split; [reflexivity|]. proj.
        rewrite !lookup_insert_eq, !lookup_insert_ne by done.
        split; [done|]. split; [done|]. split; [done|]. split; [done|].
        split; [done|]. split.
        { unfold areContextsRelated, tokenOf, getMutationContext, bind,
            readContext, ret. by run. }
        split; [split; [intros E; by symmetry in E|done]|].
        split; [intros E; by symmetry in E|].
        split; [intros _; split; [apply fresh_lookup|done]|done].
Qed.

(** The guards of the two [modifyAs...] functions, evaluated. *)
Lemma modifyAsSubordinate_run h context v o c k p :
  values h !! v = Some o → contexts h !! mctx o = Some c →
  contextOf context h = Ok k h → contexts h !! k = Some p →
  tokens h !! token p = Some true →
  modifyAsSubordinate context v h =
    if bool_decide (token c = token p) && (scope c =? -1) then Ok v h
    else bind (asSubordinateContext k) (λ k', clone v (PContext k')) h.
Proof.
  intros Hv Hc Hk Hp Ht. unfold modifyAsSubordinate.
  rewrite (bind_Ok _ _ _ _ _ (getMutationContext_run h v o Hv)).
  rewrite (bind_Ok _ _ _ _ _ Hk).
  rewrite (bind_Ok _ _ _ _ _ (isMutableContext_run h k p true Hp Ht)).
  rewrite (bind_Ok _ _ _ _ _ (isRelatedContext_run h _ k c p Hc Hp)).
  destruct (bool_decide (token c = token p)); cbn [andb].
  - rewrite (bind_Ok _ _ _ _ _ (isSubordinateContext_run h _ c Hc)).
    by destruct (scope c =? -1).
  - done.
Qed.

Lemma modifyAsEqual_run h context v o c k p :
  values h !! v = Some o → contexts h !! mctx o = Some c →
  contextOf context h = Ok k h → contexts h !! k = Some p →
  tokens h !! token p = Some true →
  modifyAsEqual context v h =
    if bool_decide (token c = token p) && ((scope p =? -1) || (0 <=? scope c))
    then Ok v h
    else clone v (PContext k) h.
Proof.
  intros Hv Hc Hk Hp Ht. unfold modifyAsEqual.
  rewrite (bind_Ok _ _ _ _ _ (getMutationContext_run h v o Hv)).
  rewrite (bind_Ok _ _ _ _ _ Hk).
  rewrite (bind_Ok _ _ _ _ _ (isMutableContext_run h k p true Hp Ht)).
  rewrite (bind_Ok _ _ _ _ _ (isRelatedContext_run h _ k c p Hc Hp)).
  destruct (bool_decide (token c = token p)); cbn [andb]; [|done].
  assert (G : bind (isSubordinateContext k)
                (λ sp : bool, if sp then ret true else isPrimaryContext (mctx o)) h
              = Ok ((scope p =? -1) || (0 <=? scope c)) h).
  { rewrite (bind_Ok _ _ _ _ _ (isSubordinateContext_run h k p Hp)).
    destruct (scope p =? -1); [reflexivity|by apply isPrimaryContext_run]. }
  rewrite (bind_Ok _ _ _ _ _ G). by destruct (_ || _).
Qed.

(** X13. The value [modifyAsSubordinate] returns is a plain member of the
    owner's batch: it is mutable, and neither [commit] nor [begin] on it
    changes anything, so it can neither end the batch nor deepen it. *)
Theorem modifyAsSubordinate_member h context v o c k p :
  wf h → values h !! v = Some o → contexts h !! mctx o = Some c →
  contextOf context h = Ok k h → contexts h !! k = Some p →
  tokens h !! token p = Some true →
  ∃ v' h', modifyAsSubordinate context v h = Ok v' h'
    ∧ isMutable v' h' = Ok true h'
    ∧ commit v' h' = Ok v' h'
    ∧ begin v' h' = Ok v' h'.
Proof.
  intros W Hv Hc Hk Hp Ht.
  rewrite (modifyAsSubordinate_run h context v o c k p) by done.
  destruct (wf_context h k p W Hp) as [_ Hge].
  destruct (bool_decide (token c = token p) && (scope c =? -1)) eqn:G.
  - apply andb_true_iff in G as [G1 G2].
    apply bool_decide_eq_true_1 in G1. apply Z.eqb_eq in G2.
    assert (Htc : tokens h !! token c = Some true) by by rewrite G1.
    exists v, h. splits; [done|..].
    + by apply isMutable_run with o c.
    + apply commit_subordinate with o c; [done..|lia].
    + by apply begin_subordinate with o c.
  - clear G. destruct (Z.le_gt_cases 0 (scope p)) as [Hs|Hs].
    + rewrite (bind_Ok _ _ _ _ _ (asSubordinateContext_primary h k p Hp Hs)).
      rewrite (clone_context_run (mkHeap _ _ _) v o _
                 (mkMutationContext (token p) (-1))); proj;
        [|done|apply lookup_insert_eq|done].
      eexists _, _. split; [reflexivity|]. splits.
      * apply (isMutable_run (mkHeap _ _ _) _
                 (mkPersistent (fresh (dom (contexts h))) (content o) (slots o))
                 (mkMutationContext (token p) (-1)) true);
          proj; [apply lookup_insert_eq|apply lookup_insert_eq|done].
      * apply (commit_subordinate (mkHeap _ _ _) _
                 (mkPersistent (fresh (dom (contexts h))) (content o) (slots o))
                 (mkMutationContext (token p) (-1)));
          proj; [apply lookup_insert_eq|apply lookup_insert_eq|lia].
      * apply (begin_subordinate (mkHeap _ _ _) _
                 (mkPersistent (fresh (dom (contexts h))) (content o) (slots o))
                 (mkMutationContext (token p) (-1)));
          proj; [apply lookup_insert_eq|apply lookup_insert_eq|done|done].
    + rewrite (bind_Ok _ _ _ _ _ (asSubordinateContext_subordinate h k p Hp Hs)).
      rewrite (clone_context_run h v o k p) by done.
      eexists _, _. split; [reflexivity|]. splits.
      * apply (isMutable_run (mkHeap _ _ _) _
                 (mkPersistent k (content o) (slots o)) p true);
          proj; [apply lookup_insert_eq|done|done].
      * apply (commit_subordinate (mkHeap _ _ _) _
                 (mkPersistent k (content o) (slots o)) p);
          proj; [apply lookup_insert_eq|done|done].
      * apply (begin_subordinate (mkHeap _ _ _) _
                 (mkPersistent k (content o) (slots o)) p);
          proj; [apply lookup_insert_eq|done|done|lia].
Qed.

(** X14. When [modifyAsEqual] clones a child for an owner whose context
    is primary, the clone carries the owner's own context object and is
    thereby a second owner of the batch: with the owner at depth 0,
    [commit] on the clone ends the batch and makes the owner immutable. *)
Theorem modifyAsEqual_coowner h owner v oo p o c :
  values h !! owner = Some oo → contexts h !! mctx oo = Some p →
  tokens h !! token p = Some true → scope p = 0 →
  values h !! v = Some o → contexts h !! mctx o = Some c →
  token c ≠ token p →
  ∃ v' h' o' h'', modifyAsEqual (OValue owner) v h = Ok v' h'
    ∧ values h !! v' = Datatypes.None
    ∧ values h' !! v' = Some o'
    ∧ mctx o' = mctx oo ∧ content o' = content o
    ∧ commit v' h' = Ok v' h''
    ∧ isImmutable owner h'' = Ok true h''
    ∧ isImmutable v' h'' = Ok true h''.
Proof.
  intros Ho Hp Ht Hs Hv Hc N. assert (Hfo := fresh_ne _ _ _ Ho).
  rewrite (modifyAsEqual_run h (OValue owner) v o c (mctx oo) p Hv Hc
             (getMutationContext_run h owner oo Ho) Hp Ht).
  rewrite bool_decide_eq_false_2 by done. cbn [andb].
  rewrite (clone_context_run h v o (mctx oo) p) by done.
  eexists _, _, (mkPersistent (mctx oo) (content o) (slots o)), _.
  split; [reflexivity|]. proj. rewrite lookup_insert_eq.
  split; [apply fresh_lookup|]. split; [done|]. split; [done|]. split; [done|].
  split.
  - apply (commit_close (mkHeap _ _ _) _
             (mkPersistent (mctx oo) (content o) (slots o)) p);
      proj; [apply lookup_insert_eq|done|done].
  - split.
    + apply (isImmutable_run (mkHeap _ _ _) owner oo p false); proj;
        [by rewrite lookup_insert_ne|done|apply lookup_insert_eq].
    + apply (isImmutable_run (mkHeap _ _ _) _
               (mkPersistent (mctx oo) (content o) (slots o)) p false); proj;
        [apply lookup_insert_eq|done|apply lookup_insert_eq].
Qed.

(** X12. A batch that touches a child: on an owner at depth 0,
    [modifyProperty] followed by [commit] on the parent leaves the parent
    and the child it returned both immutable, with the child in the
    parent's slot; a child that was not related has been replaced by a
    clone and is itself as it was. *)
Theorem modifyProperty_then_commit h parent name po pc child co cc :
  wf h → values h !! parent = Some po → contexts h !! mctx po = Some pc →
  tokens h !! token pc = Some true → scope pc = 0 →
  slots po !! name = Some child → values h !! child = Some co →
  contexts h !! mctx co = Some cc →
  ∃ r h1 h2 po2, modifyProperty parent name h = Ok r h1
    ∧ commit parent h1 = Ok parent h2
    ∧ isImmutable parent h2 = Ok true h2
    ∧ isImmutable r h2 = Ok true h2
    ∧ values h2 !! parent = Some po2 ∧ slots po2 !! name = Some r
    ∧ (token cc ≠ token pc → r ≠ child ∧ values h2 !! child = Some co).
Proof.
  intros W Hp Hpc Ht Hs Hsl Hv Hcc.
  destruct (decide (token cc = token pc)) as [Hr|Hr].
  - exists child, h, (mkHeap (<[token pc := false]> (tokens h)) (contexts h)
                             (values h)), po.
    split; [unfold_ops; by run|].
    split; [by apply commit_close with po|]. splits; try done.
    + apply (isImmutable_run (mkHeap _ _ _) parent po pc false); proj;
        [done|done|apply lookup_insert_eq].
    + apply (isImmutable_run (mkHeap _ _ _) child co cc false); proj;
        [done|done|]. rewrite Hr. apply lookup_insert_eq.
  - assert (Hfp := fresh_ne _ _ _ Hp). assert (Hfc := fresh_ne _ _ _ Hv).
    assert (Hfk := fresh_ne _ _ _ Hpc).
    assert (child ≠ parent) by (intros ->; simplify_eq; done).
    eexists (fresh (dom (values h))), _, _,
      (mkPersistent (mctx po) (content po)
         (<[name := fresh (dom (values h))]> (slots po))).
    split; [unfold_ops; run; reflexivity|].
    split.
    { apply (commit_close (mkHeap _ _ _) parent
               (mkPersistent (mctx po) (content po)
                  (<[name := fresh (dom (values h))]> (slots po))) pc);
        proj; [apply lookup_insert_eq|by rewrite lookup_insert_ne|done]. }
    proj. splits.
    + apply (isImmutable_run (mkHeap _ _ _) parent
               (mkPersistent (mctx po) (content po)
                  (<[name := fresh (dom (values h))]> (slots po))) pc false);
        proj; [apply lookup_insert_eq|by rewrite lookup_insert_ne
              |apply lookup_insert_eq].
    + apply (isImmutable_run (mkHeap _ _ _) _
               (mkPersistent (fresh (dom (contexts h))) (content co) (slots co))
               (mkMutationContext (token pc) (-1)) false); proj.
      * rewrite lookup_insert_ne by congruence. apply lookup_insert_eq.
      * apply lookup_insert_eq.
      * apply lookup_insert_eq.
    + apply lookup_insert_eq.
    + apply lookup_insert_eq.
    + intros _. split; [congruence|].
      by rewrite !lookup_insert_ne by congruence.
Qed.

(** X15. [update] on a value that is already mutable does not end its
    batch: it runs the procedure on the value itself, returns the same
    reference, and the [commit] that closes it writes no token and no
    value and puts the context of the value back at the depth it had
    before the call. *)
Theorem update_mutable h (mutate : UpdaterFn Data) v o c :
  wf h → values h !! v = Some o → contexts h !! mctx o = Some c →
  tokens h !! token c = Some true → MutationProcedure mutate →
  ∃ h1 h2 h3, begin v h = Ok v h1
    ∧ mutate v h1 = Ok tt h2
    ∧ update mutate v h = Ok v h3
    ∧ values h3 = values h2 ∧ tokens h3 = tokens h2
    ∧ contexts h3 !! mctx o = Some c.
Proof.
  intros W Hv Hc Ht P. destruct (wf_context h _ c W Hc) as [_ Hge].
  destruct (decide (scope c = -1)) as [Hs|Hs].
  - destruct (P h v o c W Hv Hc Ht) as (h2 & E2 & W2 & (o2 & V2 & M2) & C2 & _).
    exists h, h2, h2.
    assert (E1 := begin_subordinate h v o c Hv Hc Ht Hs).
    split; [done|]. split; [done|]. rewrite <- M2 in C2.
    split; [|by rewrite M2 in C2].
    unfold update. rewrite (bind_Ok _ _ _ _ _ E1), (bind_Ok _ _ _ _ _ E2).
    apply commit_subordinate with o2 c; [done..|lia].
  - assert (mctx o ≠ Frozen) by (eapply wf_mutable_not_Frozen; eauto).
    assert (E1 := begin_primary h v o c W Hv Hc Ht Hs).
    destruct (P (mkHeap (tokens h)
                   (<[mctx o := mkMutationContext (token c) (scope c + 1)]>
                      (contexts h)) (values h))
                v o (mkMutationContext (token c) (scope c + 1)))
      as (h2 & E2 & W2 & (o2 & V2 & M2) & C2 & _); proj.
    { apply wf_set_scope; try done. lia. }
    { done. }
    { apply lookup_insert_eq. }
    { done. }
    eexists _, h2, _. split; [exact E1|]. split; [exact E2|].
    rewrite <- M2 in C2. split.
    { unfold update. rewrite (bind_Ok _ _ _ _ _ E1), (bind_Ok _ _ _ _ _ E2).
      apply (commit_nested h2 v o2 (mkMutationContext (token c) (scope c + 1)));
        proj; [done..|lia]. }
    proj. rewrite M2, lookup_insert_eq. splits; try done.
    replace (scope c + 1 - 1) with (scope c) by lia. by destruct c.
Qed.

End Operations.

(** ** Orderings *)

Section OrderingFacts.
Import Ordering.

(** X16. [invert] always returns an ordering, also on a number that is
    not one, and it is its own inverse exactly on the orderings. *)
Theorem invert_involutive (o : Z) :
  isOrdering (invert o) ∧ (invert (invert o) = o ↔ isOrdering o).
Proof.
  unfold invert, isOrdering.
  destruct (Z.eqb_spec o (-1)) as [->|N1]; [cbn; intuition lia|].
  destruct (Z.eqb_spec o 1) as [->|N2]; [cbn; intuition lia|].
  cbn. intuition lia.
Qed.

(** X17. [sign] returns [-1], [0] or [1] according to the number being
    negative, zero or positive; it leaves an ordering as it is, and
    inverting the sign of a number gives the sign of its opposite. *)
Theorem sign_spec (n : Z) :
  isOrdering (sign n)
  ∧ (sign n = -1 ↔ n < 0) ∧ (sign n = 0 ↔ n = 0) ∧ (sign n = 1 ↔ 0 < n)
  ∧ sign (sign n) = sign n
  ∧ invert (sign n) = sign (- n).
Proof.
  unfold sign, invert, isOrdering.
  destruct (Z.ltb_spec n 0); [|destruct (Z.ltb_spec 0 n)].
  - destruct (Z.ltb_spec (- n) 0); [lia|]. destruct (Z.ltb_spec 0 (- n)); [|lia].
    cbn. intuition lia.
  - destruct (Z.ltb_spec (- n) 0); [|lia]. cbn. intuition lia.
  - destruct (Z.ltb_spec (- n) 0); [lia|]. destruct (Z.ltb_spec 0 (- n)); [lia|].
    cbn. intuition lia.
Qed.

(** X18. The number comparator is curried with its arguments swapped:
    [compare(y)(x)] is the sign of [x - y], so it is [-1] exactly when
    [x < y]; swapping the arguments inverts the result, the result is [0]
    exactly on equal numbers, and "less than" composes. *)
Theorem ordNumber_laws (x y z : Z) :
  ordNumber y x = sign (x - y)
  ∧ ordNumber x y = invert (ordNumber y x)
  ∧ (ordNumber y x = -1 ↔ x < y)
  ∧ (ordNumber y x = 0 ↔ x = y)
  ∧ (ordNumber y x = 1 ↔ y < x)
  ∧ (ordNumber y x = -1 → ordNumber z y = -1 → ordNumber z x = -1).
Proof.
  unfold ordNumber, compare, sign, invert.
  destruct (Z.ltb_spec x y), (Z.ltb_spec y x), (Z.ltb_spec (x - y) 0),
    (Z.ltb_spec 0 (x - y)), (Z.ltb_spec y z), (Z.ltb_spec z y),
    (Z.ltb_spec x z), (Z.ltb_spec z x); cbn; try lia; intuition lia.
Qed.

(** X19. Over any [<] that is a strict total order, [compare] returns an
    ordering, swapping its arguments inverts the result, the result is
    [0] exactly on equal arguments, and "less than" composes. *)
Theorem compare_laws {A} (lt : A → A → bool) :
  (∀ a, lt a a = false) →
  (∀ a b c, lt a b = true → lt b c = true → lt a c = true) →
  (∀ a b, lt a b = false → lt b a = false → a = b) →
  ∀ x y z,
    isOrdering (compare lt y x)
    ∧ compare lt x y = invert (compare lt y x)
    ∧ (compare lt y x = -1 ↔ lt x y = true)
    ∧ (compare lt y x = 0 ↔ x = y)
    ∧ (compare lt y x = -1 → compare lt z y = -1 → compare lt z x = -1).
Proof.
  intros Irr Tr Tot x y z.
  assert (Asym : ∀ a b, lt a b = true → lt b a = false).
  { intros a b H. destruct (lt b a) eqn:E; [|done].
    by rewrite <- (Irr a), (Tr a b a H E). }
  unfold compare, invert, isOrdering.
  destruct (lt x y) eqn:Exy.
  - rewrite (Asym _ _ Exy). cbn.
    split; [tauto|]. split; [done|]. split; [done|]. split.
    + split; [done|]. intros ->. by rewrite Irr in Exy.
    + intros _. destruct (lt y z) eqn:Eyz; [|by destruct (lt z y)].
      by rewrite (Tr _ _ _ Exy Eyz).
  - destruct (lt y x) eqn:Eyx; cbn.
    + split; [tauto|]. split; [done|]. split; [done|]. split; [|done].
      split; [done|]. intros ->. by rewrite Irr in Eyx.
    + split; [tauto|]. split; [done|]. split; [done|]. split; [|done].
      split; [|done]. intros _. by apply Tot.
Qed.

End OrderingFacts.

(** ** Stores of nodes *)

Section MoreTreeFacts.
Context {K V : Type}.

(** X20. A store built from the module's initial store by any run of
    [makeNode] calls for a tree still has the sentinel as it was made,
    holds one node more per call, and every node other than the sentinel
    is a leaf: it counts 1, both its children are the sentinel, and it is
    editable exactly when the tree is. *)
Theorem makeNodes_invariant (tree : RedBlackTree.RedBlackTree K)
    (items : list (bool * K * V)) :
  makeNodes tree items RedBlackTree.initial !! RedBlackTree.None
    = Some (RedBlackTree.mkNode true Datatypes.None Datatypes.None false 0
              RedBlackTree.None RedBlackTree.None)
  ∧ size (makeNodes tree items RedBlackTree.initial) = S (length items)
  ∧ ∀ n node,
      makeNodes tree items RedBlackTree.initial !! n = Some node →
      n ≠ RedBlackTree.None →
      RedBlackTree.count node = 1
      ∧ RedBlackTree.left node = RedBlackTree.None
      ∧ RedBlackTree.right node = RedBlackTree.None
      ∧ RedBlackTree.editable node = RedBlackTree.tree_editable tree.
Proof.
  set (sentinel := RedBlackTree.mkNode (K := K) (V := V) true Datatypes.None
                     Datatypes.None false 0 RedBlackTree.None RedBlackTree.None).
  set (leaf := λ node : RedBlackTree.Node K V,
         RedBlackTree.count node = 1
         ∧ RedBlackTree.left node = RedBlackTree.None
         ∧ RedBlackTree.right node = RedBlackTree.None
         ∧ RedBlackTree.editable node = RedBlackTree.tree_editable tree).
  assert (G : ∀ (s : gmap ref (RedBlackTree.Node K V)),
             s !! RedBlackTree.None = Some sentinel →
             (∀ n node, s !! n = Some node → n ≠ RedBlackTree.None → leaf node) →
             makeNodes tree items s !! RedBlackTree.None = Some sentinel
             ∧ size (makeNodes tree items s) = (size s + length items)%nat
             ∧ ∀ n node, makeNodes tree items s !! n = Some node →
                 n ≠ RedBlackTree.None → leaf node).
  { induction items as [|[[red key] value] items IH]; intros s HN HL.
    - unfold makeNodes. cbn [fold_left length]. splits; [done| |done].
      by rewrite Nat.add_0_r.
    - change (makeNodes tree ((red, key, value) :: items) s)
        with (makeNodes tree items
                (<[fresh (dom s) :=
                     RedBlackTree.mkNode (RedBlackTree.tree_editable tree)
                       (Some key) (Some value) red 1
                       RedBlackTree.None RedBlackTree.None]> s)).
      assert (Hf := fresh_ne _ _ _ HN).
      destruct (IH (<[fresh (dom s) :=
                       RedBlackTree.mkNode (RedBlackTree.tree_editable tree)
                         (Some key) (Some value) red 1
                         RedBlackTree.None RedBlackTree.None]> s))
        as (A & B & C).
      + by rewrite lookup_insert_ne by done.
      + intros n node E Nn. destruct (decide (fresh (dom s) = n)) as [<-|N].
        * rewrite lookup_insert_eq in E. injection E as <-. by repeat split.
        * rewrite lookup_insert_ne in E by done. by apply HL with n.
      + splits; [done| |done].
        rewrite B, map_size_insert_None by apply fresh_lookup.
        cbn [length]. lia. }
  destruct (G RedBlackTree.initial) as (A & B & C).
  - vm_compute. reflexivity.
  - intros n node E Nn. exfalso. apply Nn.
    assert (I : RedBlackTree.initial
                = <[RedBlackTree.None := sentinel]>
                    (∅ : gmap ref (RedBlackTree.Node K V)))
      by (vm_compute; reflexivity).
    rewrite I in E. destruct (decide (RedBlackTree.None = n)) as [<-|N]; [done|].
    rewrite lookup_insert_ne in E by done. by rewrite lookup_empty in E.
  - splits; [done| |done]. rewrite B. f_equal.
Qed.

End MoreTreeFacts.

(** ** The further facts on the sample heaps *)

Lemma isRelatedContext_equivalence_witness :
  isRelatedContext 2%positive 2%positive heapBatch = Ok true heapBatch
  ∧ isRelatedContext 3%positive 2%positive heapBatch
    = isRelatedContext 2%positive 3%positive heapBatch.
Proof.
  destruct (isRelatedContext_equivalence heapBatch 2%positive 3%positive 4%positive
              (mkMutationContext 2%positive 0) (mkMutationContext 2%positive (-1))
              (mkMutationContext 3%positive 1) eq_refl eq_refl eq_refl)
    as (A & B & _).
  split; [exact A|exact B].
Defined.

Lemma asSubordinateContext_spec_witness :
  ∃ k' h', asSubordinateContext 2%positive heapBatch = Ok k' h'
    ∧ asSubordinateContext k' h' = Ok k' h'.
Proof.
  destruct (asSubordinateContext_spec heapBatch 2%positive
              (mkMutationContext 2%positive 0) eq_refl)
    as (k' & h' & c' & E & _ & _ & _ & _ & _ & I).
  exists k', h'. split; [exact E|exact I].
Defined.

Lemma selectContext_mutability_witness :
  wf heapBatch
  ∧ ∃ k h' b, selectContext (PValue 1%positive) heapBatch = Ok k h'
      ∧ isMutableContext k h' = Ok b h'
      ∧ isMutable 1%positive heapBatch = Ok b heapBatch.
Proof.
  split; [exact wf_heapBatch|].
  destruct (selectContext_mutability heapBatch (PValue 1%positive) wf_heapBatch
              (ex_intro _ (mkPersistent 2%positive 10 {[ "left" := 4%positive ]})
                 eq_refl))
    as (k & h' & b & E & I & P & _).
  exists k, h', b. split; [exact E|]. split; [exact I|exact P].
Defined.

Lemma clone_spec_witness :
  wf heapBatch
  ∧ ∃ v' h', clone 4%positive (PBool true) heapBatch = Ok v' h'
      ∧ values heapBatch !! v' = Datatypes.None
      ∧ isMutable v' h' = Ok true h'.
Proof.
  split; [exact wf_heapBatch|].
  destruct (clone_spec heapBatch 4%positive (mkPersistent 1%positive 40 ∅)
              (PBool true) wf_heapBatch eq_refl I)
    as (v' & h' & o' & b & E & F & _ & _ & _ & M & P & _).
  exists v', h'. split; [exact E|]. split; [exact F|].
  cbn in P. rewrite P in M. exact M.
Defined.

Lemma withMutability_boolean_witness :
  wf heapBatch
  ∧ ∃ v' h', withMutability (PBool true) 4%positive heapBatch = Ok v' h'
      ∧ isMutable v' h' = Ok true h' ∧ v' ≠ 4%positive.
Proof.
  split; [exact wf_heapBatch|].
  destruct (withMutability_boolean heapBatch 4%positive
              (mkPersistent 1%positive 40 ∅) (mkMutationContext 1%positive (-1))
              false true wf_heapBatch eq_refl eq_refl eq_refl)
    as [(v' & h' & o' & E & _ & _ & _ & M & N & _) _].
  exists v', h'. split; [exact E|]. split; [exact M|].
  intros K. apply N in K. discriminate K.
Defined.

Lemma withMutability_related_witness :
  wf heapBatch
  ∧ ∃ v' h' o', withMutability (PContext 2%positive) 4%positive heapBatch = Ok v' h'
      ∧ values h' !! v' = Some o'
      ∧ isRelatedContext 2%positive (mctx o') h' = Ok true h'.
Proof.
  split; [exact wf_heapBatch|].
  destruct (proj1 (withMutability_related heapBatch 4%positive
                     (mkPersistent 1%positive 40 ∅)
                     (mkMutationContext 1%positive (-1))
                     wf_heapBatch eq_refl eq_refl)
              2%positive (mkMutationContext 2%positive 0) eq_refl)
    as (v' & h' & o' & E & V & _ & _ & R & _).
  exists v', h', o'. split; [exact E|]. split; [exact V|exact R].
Defined.

Lemma ensureContext_spec_witness :
  ∃ v' h' o', ensureContext 3%positive 4%positive heapBatch = Ok v' h'
    ∧ values h' !! v' = Some o' ∧ mctx o' = 3%positive
    ∧ ensureContext 3%positive v' h' = Ok v' h'.
Proof.
  destruct (ensureContext_spec heapBatch 3%positive 4%positive
              (mkPersistent 1%positive 40 ∅) eq_refl)
    as (v' & h' & o' & E & V & M & _ & _ & _ & _ & _ & I).
  exists v', h', o'. split; [exact E|]. split; [exact V|]. split; [exact M|exact I].
Defined.

Lemma commitContext_spec_witness :
  commitContext 4%positive heapBatch =
    Ok tt (mkHeap (<[3%positive := false]> (tokens heapBatch))
                  (contexts heapBatch) (values heapBatch)).
Proof.
  exact (proj1 (proj1 (commitContext_spec heapBatch 4%positive
                         (mkMutationContext 3%positive 1) eq_refl)
                  ltac:(cbn; lia))).
Defined.

Lemma nested_restores_witness :
  wf heapBatch ∧ nested 3 5%positive heapBatch = Ok 5%positive heapBatch.
Proof.
  split; [exact wf_heapBatch|].
  exact (nested_restores 3 heapBatch 5%positive (mkPersistent 4%positive 50 ∅)
           (mkMutationContext 3%positive 1) wf_heapBatch eq_refl eq_refl eq_refl).
Defined.

Lemma immutable_forever_witness :
  values (runCalls [CallBegin 4%positive; CallModifyProperty 1%positive "left";
                    CallCommit 1%positive] heapBatch) !! 4%positive
  = Some (mkPersistent 1%positive 40 ∅).
Proof.
  exact (proj1 (immutable_forever
                  [CallBegin 4%positive; CallModifyProperty 1%positive "left";
                   CallCommit 1%positive]
                  heapBatch 4%positive (mkPersistent 1%positive 40 ∅)
                  (mkMutationContext 1%positive (-1)) eq_refl eq_refl eq_refl)).
Defined.

Lemma modifyProperty_then_commit_witness :
  wf heapBatch
  ∧ ∃ r h1 h2, modifyProperty 1%positive "left" heapBatch = Ok r h1
      ∧ commit 1%positive h1 = Ok 1%positive h2
      ∧ isImmutable 1%positive h2 = Ok true h2
      ∧ isImmutable r h2 = Ok true h2.
Proof.
  split; [exact wf_heapBatch|].
  destruct (modifyProperty_then_commit heapBatch 1%positive "left"
              (mkPersistent 2%positive 10 {[ "left" := 4%positive ]})
              (mkMutationContext 2%positive 0) 4%positive
              (mkPersistent 1%positive 40 ∅) (mkMutationContext 1%positive (-1))
              wf_heapBatch eq_refl eq_refl eq_refl eq_refl eq_refl eq_refl eq_refl)
    as (r & h1 & h2 & po2 & E1 & E2 & I1 & I2 & _).
  exists r, h1, h2. split; [exact E1|]. split; [exact E2|].
  split; [exact I1|exact I2].
Defined.

Lemma modifyAsSubordinate_member_witness :
  wf heapBatch
  ∧ ∃ v' h', modifyAsSubordinate (OValue 1%positive) 4%positive heapBatch = Ok v' h'
      ∧ isMutable v' h' = Ok true h' ∧ commit v' h' = Ok v' h'.
Proof.
  split; [exact wf_heapBatch|].
  destruct (modifyAsSubordinate_member heapBatch (OValue 1%positive) 4%positive
              (mkPersistent 1%positive 40 ∅) (mkMutationContext 1%positive (-1))
              2%positive (mkMutationContext 2%positive 0)
              wf_heapBatch eq_refl eq_refl eq_refl eq_refl eq_refl)
    as (v' & h' & E & M & C & _).
  exists v', h'. split; [exact E|]. split; [exact M|exact C].
Defined.

Lemma modifyAsEqual_coowner_witness :
  ∃ v' h' h'', modifyAsEqual (OValue 1%positive) 4%positive heapBatch = Ok v' h'
    ∧ commit v' h' = Ok v' h''
    ∧ isImmutable 1%positive h'' = Ok true h''.
Proof.
  destruct (modifyAsEqual_coowner heapBatch 1%positive 4%positive
              (mkPersistent 2%positive 10 {[ "left" := 4%positive ]})
              (mkMutationContext 2%positive 0)
              (mkPersistent 1%positive 40 ∅) (mkMutationContext 1%positive (-1))
              eq_refl eq_refl eq_refl eq_refl eq_refl eq_refl
              ltac:(cbn; discriminate))
    as (v' & h' & o' & h'' & E & _ & _ & _ & _ & C & I & _).
  exists v', h', h''. split; [exact E|]. split; [exact C|exact I].
Defined.

Lemma update_mutable_witness :
  wf heapBatch ∧ MutationProcedure (@setContent Z 9)
  ∧ ∃ h3, update (setContent 9) 1%positive heapBatch = Ok 1%positive h3
      ∧ contexts h3 !! 2%positive = Some (mkMutationContext 2%positive 0).
Proof.
  split; [exact wf_heapBatch|].
  split; [exact (setContent_MutationProcedure 9)|].
  destruct (update_mutable heapBatch (setContent 9) 1%positive
              (mkPersistent 2%positive 10 {[ "left" := 4%positive ]})
              (mkMutationContext 2%positive 0)
              wf_heapBatch eq_refl eq_refl eq_refl (setContent_MutationProcedure 9))
    as (h1 & h2 & h3 & _ & _ & E & _ & _ & C).
  exists h3. split; [exact E|exact C].
Defined.

Lemma compare_laws_witness :
  Ordering.ordBoolean true false = Ordering.invert (Ordering.ordBoolean false true)
  ∧ (Ordering.ordBoolean false true = -1 ↔ Ordering.ltBoolean true false = true).
Proof.
  destruct (compare_laws Ordering.ltBoolean
              ltac:(intros []; reflexivity)
              ltac:(intros [] [] []; cbn; intros; try reflexivity; discriminate)
              ltac:(intros [] []; cbn; intros; try reflexivity; discriminate)
              true false false)
    as (_ & A & B & _).
  split; [exact A|exact B].
Defined.

(** ** Error messages *)

Section ErrorFacts.
Import Errors.

(** X21. The helpers throw a plain [Error], and the message tells which
    helper threw: whatever their arguments, the messages of
    [throwNotImplemented], [throwNotSupported], [throwInvalidOperation],
    [throwMissing] and [throwArgumentError] are pairwise different. *)
Theorem messages_distinct (s1 s2 s3 n4 n5 : string) (m4 m5 : option string) :
  notImplementedMessage s1 ≠ notSupportedMessage s2
  ∧ notImplementedMessage s1 ≠ invalidOperationMessage s3
  ∧ notImplementedMessage s1 ≠ missingMessage n4 m4
  ∧ notImplementedMessage s1 ≠ argumentErrorMessage n5 m5
  ∧ notSupportedMessage s2 ≠ invalidOperationMessage s3
  ∧ notSupportedMessage s2 ≠ missingMessage n4 m4
  ∧ notSupportedMessage s2 ≠ argumentErrorMessage n5 m5
  ∧ invalidOperationMessage s3 ≠ missingMessage n4 m4
  ∧ invalidOperationMessage s3 ≠ argumentErrorMessage n5 m5
  ∧ missingMessage n4 m4 ≠ argumentErrorMessage n5 m5.
Proof.
  unfold notImplementedMessage, notSupportedMessage, invalidOperationMessage,
    missingMessage, argumentErrorMessage.
  splits; try (cbn; discriminate).
  all: destruct (truthy n5); cbn; discriminate.
Qed.

End ErrorFacts.

(** ** Committing twice *)

(** X22. A second [commit] on an owner whose batch has ended changes
    nothing: the scope stays at 0 instead of going negative, so the owner
    is not turned into a subordinate, and the token stays [false]. *)
Theorem commit_twice {Data} (h : Heap Data) v o c :
  values h !! v = Some o → contexts h !! mctx o = Some c → scope c = 0 →
  ∃ h1, commit v h = Ok v h1
    ∧ commit v h1 = Ok v h1
    ∧ contexts h1 !! mctx o = Some c
    ∧ isImmutable v h1 = Ok true h1.
Proof.
  intros Hv Hc Hs.
  exists (mkHeap (<[token c := false]> (tokens h)) (contexts h) (values h)).
  split; [by apply commit_close with o|]. split; [|split; [done|]].
  - rewrite (commit_close (mkHeap _ _ _) v o c) by done. proj.
    by rewrite insert_insert_eq.
  - apply (isImmutable_run (mkHeap _ _ _) v o c false); proj; [done..|].
    apply lookup_insert_eq.
Qed.

Lemma commit_twice_witness :
  ∃ h1, commit 1%positive heapBatch = Ok 1%positive h1
    ∧ commit 1%positive h1 = Ok 1%positive h1.
Proof.
  destruct (commit_twice heapBatch 1%positive
              (mkPersistent 2%positive 10 {[ "left" := 4%positive ]})
              (mkMutationContext 2%positive 0) eq_refl eq_refl eq_refl)
    as (h1 & E1 & E2 & _).
  exists h1. split; [exact E1|exact E2].
Defined.

(** ** [update] with any procedure *)

Section UpdateFacts.
Context {Data : Type}.
Implicit Types (h : Heap Data) (o : Persistent Data) (c : MutationContext).


(** C8. [isPersistentConstructor] does not answer on a function that has
    no [prototype], such as an arrow function: the access to
    [value.prototype[cloneSym]] raises a [TypeError]. *)
Theorem isPersistentConstructor_arrow h :
  isPersistentConstructor (mkFunction Datatypes.None) h = Throw TypeError h.
Proof. reflexivity. Qed.

End UpdateFacts.


